(** * Bibliography reconciler and PDF truncation scripts

    A shallow embedding of [font/bib-sort.py] and [font/split-pdf.py].

    Python [str] values are modelled as [string]; a character [ascii] stands
    for a code point in the range U+0000..U+00FF.  Files live in a finite map
    from paths to contents.  A Python [dict] used as a map is a [gmap], the
    [OrderedDict] whose order is observed is an association list, and the
    [set] of citation keys is a [gset] whose iteration order is left open. *)

From Stdlib Require Import Ascii.
From stdpp Require Import gmap strings list fin_maps pretty sorting.

(** ** Python string primitives *)

Module Text.

Definition newline : ascii := "010"%char.

Definition code (c : ascii) : nat := nat_of_ascii c.

Definition between (lo hi : nat) (c : ascii) : bool :=
  (lo <=? code c)%nat && (code c <=? hi)%nat.

(** [str.isspace] on one character, for code points below 256: the
    characters of bidirectional class WS, B or S, or of category Zs. *)
Definition isspace (c : ascii) : bool :=
  between 9 13 c || between 28 32 c || (code c =? 133)%nat || (code c =? 160)%nat.

(** The class [\w] of a [str] pattern: alphanumeric characters and the
    underscore, for code points below 256. *)
Definition isword (c : ascii) : bool :=
  between 48 57 c || between 65 90 c || between 97 122 c || (code c =? 95)%nat
  || (code c =? 170)%nat || (code c =? 178)%nat || (code c =? 179)%nat
  || (code c =? 181)%nat || (code c =? 185)%nat || (code c =? 186)%nat
  || between 188 190 c || between 192 214 c || between 216 246 c
  || between 248 255 c.

(** [s.lstrip()] *)
Fixpoint lstrip (s : string) : string :=
  match s with
  | String c s' => if isspace c then lstrip s' else s
  | EmptyString => EmptyString
  end.

(** [s.rstrip()] *)
Fixpoint rstrip (s : string) : string :=
  match s with
  | EmptyString => EmptyString
  | String c s' =>
      match rstrip s' with
      | EmptyString => if isspace c then EmptyString else String c EmptyString
      | r => String c r
      end
  end.

(** [s.strip()] *)
Definition strip (s : string) : string := rstrip (lstrip s).

(** [s.split(sep)] for a separator of one character: the result is never
    empty, and an empty piece is kept. *)
Fixpoint split (sep : ascii) (s : string) : list string :=
  match s with
  | EmptyString => [EmptyString]
  | String c s' =>
      if Ascii.eqb c sep then EmptyString :: split sep s'
      else match split sep s' with
           | piece :: rest => String c piece :: rest
           | [] => [String c EmptyString]
           end
  end.

(** [s.startswith(p)] *)
Fixpoint startswith (p s : string) : bool :=
  match p, s with
  | EmptyString, _ => true
  | String a p', String b s' => Ascii.eqb a b && startswith p' s'
  | String _ _, EmptyString => false
  end.

(** [s.endswith(p)] *)
Definition endswith (p s : string) : bool :=
  startswith (String.rev p) (String.rev s).

(** [s[n:]] *)
Fixpoint drop (n : nat) (s : string) : string :=
  match n, s with
  | S n', String _ s' => drop n' s'
  | _, _ => s
  end.

(** [s[:n]] *)
Fixpoint take (n : nat) (s : string) : string :=
  match n, s with
  | S n', String c s' => String c (take n' s')
  | _, _ => EmptyString
  end.

(** [s.replace(old, new)]: the occurrences of [old] are found from left to
    right and do not overlap.  [skip] counts the characters of an
    occurrence that are still to be passed over.  With an empty [old],
    [new] is put before every character and at the end. *)
Fixpoint replace_go (old new : string) (s : string) (skip : nat) : string :=
  match s with
  | EmptyString =>
      match old with EmptyString => new | _ => EmptyString end
  | String c s' =>
      match skip with
      | S n => replace_go old new s' n
      | O =>
          match old with
          | EmptyString => new +:+ String c (replace_go old new s' 0)
          | _ =>
              if startswith old s
              then new +:+ replace_go old new s' (String.length old - 1)
              else String c (replace_go old new s' 0)
          end
      end
  end.

Definition replace (old new s : string) : string := replace_go old new s 0.

(** [sep.join(l)] *)
Fixpoint join (sep : string) (l : list string) : string :=
  match l with
  | [] => EmptyString
  | [x] => x
  | x :: rest => x +:+ sep +:+ join sep rest
  end.

End Text.

(** ** The fragment of Python's [re] used by the scripts

    A backtracking matcher: alternatives are tried in the order of the
    [re] module (a greedy repetition takes as much as it can first, a lazy
    one as little), and the first complete match wins. *)

Module Re.

Inductive re : Type :=
| Lit (c : ascii)                 (* a literal character *)
| Cls (p : ascii -> bool)         (* one character of a class *)
| Cat (r1 r2 : re)                (* r1 r2 *)
| Plus (p : ascii -> bool)        (* [class]+ , greedy *)
| Star (p : ascii -> bool)        (* [class]* , greedy *)
| StarLazy (p : ascii -> bool)    (* [class]*? *)
| Group (n : nat) (r : re).       (* capturing group number n *)

(** Captured groups, by number. *)
Abbreviation caps := (gmap nat string).

(** A match: the input left after it, and its groups. *)
Definition result : Type := string * caps.

Fixpoint star_greedy (p : ascii -> bool) (s : string)
    (k : string -> option result) : option result :=
  match s with
  | String c s' =>
      if p c then
        match star_greedy p s' k with
        | Some r => Some r
        | None => k s
        end
      else k s
  | EmptyString => k s
  end.

Fixpoint star_lazy (p : ascii -> bool) (s : string)
    (k : string -> option result) : option result :=
  match k s with
  | Some r => Some r
  | None =>
      match s with
      | String c s' => if p c then star_lazy p s' k else None
      | EmptyString => None
      end
  end.

(** The text between two positions, the second given by what is left. *)
Definition consumed (s rest : string) : string :=
  Text.take (String.length s - String.length rest) s.

Fixpoint run (r : re) (s : string) (c : caps)
    (k : string -> caps -> option result) : option result :=
  match r with
  | Lit a =>
      match s with
      | String b s' => if Ascii.eqb a b then k s' c else None
      | EmptyString => None
      end
  | Cls p =>
      match s with
      | String b s' => if p b then k s' c else None
      | EmptyString => None
      end
  | Cat r1 r2 => run r1 s c (fun s' c' => run r2 s' c' k)
  | Plus p =>
      match s with
      | String b s' => if p b then star_greedy p s' (fun s'' => k s'' c) else None
      | EmptyString => None
      end
  | Star p => star_greedy p s (fun s' => k s' c)
  | StarLazy p => star_lazy p s (fun s' => k s' c)
  | Group n r' => run r' s c (fun s' c' => k s' (<[n := consumed s s']> c'))
  end.

(** [pattern.match(s)]: a match that starts at the first character. *)
Definition match_at (r : re) (s : string) : option result :=
  run r s ∅ (fun s' c => Some (s', c)).

(** The matches of [re.finditer]: the input is scanned from left to right,
    a match is looked for at each position, and the scan goes on after a
    match.  [skip] counts the characters of the last match still to be
    passed over.  Every pattern of the scripts starts with a literal, so a
    match is never empty. *)
Fixpoint scan (r : re) (s : string) (skip : nat) : list caps :=
  match skip with
  | S n =>
      match s with
      | String _ s' => scan r s' n
      | EmptyString => []
      end
  | O =>
      match match_at r s with
      | Some (rest, c) =>
          c :: match s with
               | String _ s' => scan r s' (String.length s - String.length rest - 1)
               | EmptyString => []
               end
      | None =>
          match s with
          | String _ s' => scan r s' 0
          | EmptyString => []
          end
      end
  end.

Definition finditer (r : re) (s : string) : list caps := scan r s 0.

(** [m.group(n)], the empty string for a group that took no part. *)
Definition group (n : nat) (c : caps) : string := default EmptyString (c !! n).

(** [re.findall] with one group: the text of the group. *)
Definition findall1 (r : re) (s : string) : list string :=
  group 1 <$> finditer r s.

(** [re.findall] with two groups: the pairs of their texts. *)
Definition findall2 (r : re) (s : string) : list (string * string) :=
  (fun c => (group 1 c, group 2 c)) <$> finditer r s.

(** A literal word. *)
Fixpoint lit (w : string) (r : re) : re :=
  match w with
  | EmptyString => r
  | String c w' => Cat (Lit c) (lit w' r)
  end.

Definition not_char (a : ascii) (c : ascii) : bool := negb (Ascii.eqb c a).

Definition any_char (c : ascii) : bool := true.

End Re.

(** ** font/bib-sort.py *)

Module BibSort.

Import Re.

(** *** Files, standard output and exceptions *)

(** What a path holds: text, or bytes that the utf-8 codec rejects (with
    the codec's message). *)
Inductive file : Type :=
| TextFile (content : string)
| Undecodable (why : string).

Inductive exn : Type :=
| FileNotFoundError (path : string)
| PermissionError (path : string)
| UnicodeDecodeError (why : string)
| KeyError (key : string)
| OSError (why : string).

(** The part of the machine the script touches: the files, the paths that
    cannot be opened for writing, the lines printed so far, and how many
    characters the device still takes for a file that is written ([None]
    when there is no limit). *)
Record world : Type := MkWorld {
  files : gmap string file;
  locked : gset string;
  stdout : list string;
  space : option nat
}.

(** A world whose device takes all that is written. *)
Definition World (fs : gmap string file) (lk : gset string)
    (out : list string) : world :=
  MkWorld fs lk out None.

(** A computation either raises or returns, and leaves a world. *)
Definition M (A : Type) : Type := world -> (exn + A) * world.

#[export] Instance M_ret : MRet M := fun A (a : A) w => (inr a, w).

#[export] Instance M_bind : MBind M := fun A B (f : A -> M B) (m : M A) w =>
  match m w with
  | (inl e, w') => (inl e, w')
  | (inr a, w') => f a w'
  end.

(** A result without effects on the world. *)
Definition lift {A : Type} (r : exn + A) : M A := fun w => (r, w).

(** [for x in l: body x] *)
Fixpoint for_each {A : Type} (l : list A) (body : A -> M unit) : M unit :=
  match l with
  | [] => mret tt
  | x :: rest => body x ;; for_each rest body
  end.

(** [print(line)] *)
Definition print (line : string) : M unit := fun w =>
  (inr tt, MkWorld (files w) (locked w) (stdout w ++ [line]) (space w)).

(** [with open(path, 'r', encoding='utf-8') as f: f.read()] *)
Definition read_text (path : string) : M string := fun w =>
  match files w !! path with
  | None => (inl (FileNotFoundError path), w)
  | Some (Undecodable why) => (inl (UnicodeDecodeError why), w)
  | Some (TextFile content) => (inr content, w)
  end.

(** [open(path, 'w', encoding='utf-8')]: the file is created, or emptied
    when it is there. *)
Definition open_w (path : string) : M unit := fun w =>
  if decide (path ∈ locked w) then (inl (PermissionError path), w)
  else (inr tt, MkWorld (<[path := TextFile EmptyString]> (files w)) (locked w)
                  (stdout w) (space w)).

Definition append_to (data : string) (f : file) : file :=
  match f with
  | TextFile content => TextFile (content +:+ data)
  | Undecodable why => Undecodable why
  end.

(** The text fits in what the device still takes. *)
Definition fits (sp : option nat) (data : string) : Prop :=
  match sp with
  | None => True
  | Some n => String.length data ≤ n
  end.

#[export] Instance fits_dec sp data : Decision (fits sp data).
Proof. destruct sp; simpl; apply _. Defined.

(** What the device still takes after the text. *)
Definition left (sp : option nat) (data : string) : option nat :=
  match sp with
  | None => None
  | Some n => Some (n - String.length data)
  end.

(** The message of the [OSError] of a device that is full. *)
Definition no_space : string := "[Errno 28] No space left on device".

(** [f.write(data)] on the file opened at [path].  When the device does not
    take the whole text, the part that fits is written and the write
    raises.  (Python buffers what is written and may raise only when the
    file is closed, at the end of the [with] block; nothing happens in
    between but further writes, so what is left is the same.) *)
Definition write (path data : string) : M unit := fun w =>
  if decide (fits (space w) data)
  then (inr tt, MkWorld (alter (append_to data) path (files w)) (locked w)
                  (stdout w) (left (space w) data))
  else (inl (OSError no_space),
        MkWorld (alter (append_to (Text.take (default 0 (space w)) data)) path (files w))
          (locked w) (stdout w) (Some 0)).

(** *** Python containers *)

(** [d[key]] *)
Definition getitem (d : gmap string string) (key : string) : exn + string :=
  match d !! key with
  | Some v => inr v
  | None => inl (KeyError key)
  end.

(** [key in d] *)
Definition contains (d : gmap string string) (key : string) : bool :=
  bool_decide (is_Some (d !! key)).

(** An [OrderedDict]: the items in the order of their first insertion. *)
Definition odict : Type := list (string * string).

(** [d[key] = v]: a key that is there keeps its place. *)
Fixpoint od_set (d : odict) (key v : string) : odict :=
  match d with
  | [] => [(key, v)]
  | (k, x) :: rest =>
      if decide (k = key) then (k, v) :: rest else (k, x) :: od_set rest key v
  end.

(** [d.values()] and [d.keys()] *)
Definition od_values (d : odict) : list string := snd <$> d.
Definition od_keys (d : odict) : list string := fst <$> d.

(** Iterating over a [set]: Python fixes no order.  The order of a set of
    [str] follows their hashes, which change from one run to the next; all
    that holds is that every element comes exactly once.  A set that is
    not modified is enumerated in the same order each time. *)
Definition set_iter (s : gset string) (order : list string) : Prop :=
  NoDup order ∧ list_to_set order = s.

#[export] Instance set_iter_dec s order : Decision (set_iter s order).
Proof. unfold set_iter. apply _. Defined.

(** *** extract_citations_from_tex *)

Definition backslash : ascii := "092"%char.

Definition nl2 : string := String Text.newline (String Text.newline EmptyString).

(** [\\NAME\{([^}]+)\}] *)
Definition citation_pattern (name : string) : re :=
  lit (String backslash (name +:+ "{")) (Cat (Group 1 (Plus (not_char "}"))) (Lit "}")).

Definition citation_patterns : list re :=
  [ citation_pattern "cite";
    citation_pattern "citep";
    citation_pattern "citet";
    citation_pattern "citeauthor";
    citation_pattern "citeyear";
    citation_pattern "citeyearpar";
    citation_pattern "autocite";
    citation_pattern "nocite" ].

(** [for key in match.split(','): citations.add(key.strip())] *)
Definition add_keys (citations : gset string) (m : string) : gset string :=
  foldl (fun cs key => {[ Text.strip key ]} ∪ cs) citations (Text.split "," m).

(** [for match in re.findall(pattern, content): ...] *)
Definition add_matches (content : string) (citations : gset string)
    (pattern : re) : gset string :=
  foldl add_keys citations (findall1 pattern content).

(** The loop over the patterns, from the empty set. *)
Definition citations_of (content : string) : gset string :=
  foldl (add_matches content) ∅ citation_patterns.

Definition extract_citations_from_tex (tex_file : string) : M (gset string) :=
  content ← read_text tex_file;
  mret (citations_of content).

(** *** parse_bib_file *)

Definition key_char (c : ascii) : bool :=
  negb (Ascii.eqb c ",") && negb (Ascii.eqb c Text.newline).

(** [(@\w+\{([^,\n]+),.*?\n\s*\})] with [re.DOTALL] *)
Definition entry_pattern : re :=
  Group 1
    (Cat (Lit "@") (Cat (Plus Text.isword) (Cat (Lit "{")
      (Cat (Group 2 (Plus key_char)) (Cat (Lit ",")
        (Cat (StarLazy any_char) (Cat (Lit Text.newline)
          (Cat (Star Text.isspace) (Lit "}"))))))))).

(** [entries[entry_name.strip()] = full_entry] *)
Definition add_entry (entries : gmap string string)
    (m : string * string) : gmap string string :=
  <[Text.strip m.2 := m.1]> entries.

Definition entries_of (content : string) : gmap string string :=
  foldl add_entry ∅ (findall2 entry_pattern content).

Definition parse_bib_file (bib_file : string) : M (gmap string string) :=
  content ← read_text bib_file;
  mret (entries_of content).

(** *** filter_and_sort_bib_entries *)

(** A result without effects: an exception or a value. *)
Definition res (A : Type) : Type := exn + A.

#[export] Instance res_ret : MRet res := fun A (a : A) => inr a.

#[export] Instance res_bind : MBind res := fun A B (f : A -> res B) (m : res A) =>
  match m with
  | inl e => inl e
  | inr a => f a
  end.

(** A loop that updates an accumulator and may raise. *)
Fixpoint fold_res {A B : Type} (step : B -> A -> res B) (acc : B)
    (l : list A) : res B :=
  match l with
  | [] => mret acc
  | x :: rest => acc' ← step acc x; fold_res step acc' rest
  end.

(** [if key in bib_entries: filtered_entries[key] = bib_entries[key]] *)
Definition keep_cited (bib_entries filtered_entries : gmap string string)
    (key : string) : res (gmap string string) :=
  if contains bib_entries key
  then v ← getitem bib_entries key; mret (<[key := v]> filtered_entries)
  else mret filtered_entries.

(** [if key in filtered_entries: sorted_entries[key] = filtered_entries[key]] *)
Definition place_entry (filtered_entries : gmap string string)
    (sorted_entries : odict) (key : string) : res odict :=
  if contains filtered_entries key
  then v ← getitem filtered_entries key; mret (od_set sorted_entries key v)
  else mret sorted_entries.

(** The function only iterates over [citation_keys], twice; the argument
    here is the order in which the set is enumerated. *)
Definition filter_and_sort_bib_entries (bib_entries : gmap string string)
    (citation_keys : list string) : res odict :=
  filtered_entries ← fold_res (keep_cited bib_entries) ∅ citation_keys;
  fold_res (place_entry filtered_entries) [] citation_keys.

(** *** write_bib_file *)

Definition write_bib_file (entries : odict) (output_file : string) : M unit :=
  open_w output_file ;;
  for_each (od_values entries) (fun entry => write output_file (entry +:+ nl2)).

(** *** main *)

Definition tex_file : string := "main.tex".
Definition bib_file : string := "ref.bib".
Definition output_file : string := "ref_output.bib".

(** [str(e)] *)
Definition str_exn (e : exn) : string :=
  match e with
  | FileNotFoundError path => "[Errno 2] No such file or directory: '" +:+ path +:+ "'"
  | PermissionError path => "[Errno 13] Permission denied: '" +:+ path +:+ "'"
  | UnicodeDecodeError why => why
  | KeyError key => "'" +:+ key +:+ "'"
  | OSError why => why
  end.

Section Main.

(** The order in which this run of the interpreter enumerates a set. *)
Variable enumerate : gset string -> list string.

(** The body of the [try]. *)
Definition main_try : M unit :=
  print ("Extracting citations from " +:+ tex_file +:+ "...") ;;
  citations ← extract_citations_from_tex tex_file;
  print ("Found " +:+ pretty (size citations) +:+ " unique citations") ;;
  print ("Parsing bibliography entries from " +:+ bib_file +:+ "...") ;;
  bib_entries ← parse_bib_file bib_file;
  print ("Found " +:+ pretty (size bib_entries) +:+ " entries in bibliography") ;;
  print "Filtering and sorting entries..." ;;
  processed_entries ← lift (filter_and_sort_bib_entries bib_entries (enumerate citations));
  print ("Kept " +:+ pretty (length processed_entries) +:+ " cited entries") ;;
  print ("Writing processed bibliography to " +:+ output_file +:+ "...") ;;
  write_bib_file processed_entries output_file ;;
  print "Processing complete!".

(** [main], with the exit status of the process: [sys.exit(1)] in both
    handlers, 0 when [main] returns. *)
Definition main (w : world) : Z * world :=
  match main_try w with
  | (inr _, w') => (0%Z, w')
  | (inl (FileNotFoundError path), w') =>
      (1%Z, (print ("Error: File not found - " +:+ str_exn (FileNotFoundError path)) w').2)
  | (inl e, w') => (1%Z, (print ("Error: " +:+ str_exn e) w').2)
  end.

End Main.

End BibSort.

(** ** font/split-pdf.py *)

Module SplitPdf.

Section Pdf.

(** A page as PyPDF2 reads it and writes it back. *)
Context {page : Type}.

(** What a path holds: a PDF document with its pages, or something that
    [PdfReader] rejects. *)
Inductive file : Type :=
| PdfFile (pages : list page)
| NotPdf (content : string).

(** How a run stops early: [sys.exit(status)], or an exception that nothing
    catches (the interpreter prints the traceback and exits with status 1). *)
Inductive stop : Type :=
| SystemExit (status : Z)
| PdfReadError (path : string)
| IndexError (index : nat).

(** The files, whether [import PyPDF2] succeeds, and the lines printed. *)
Record world : Type := World {
  files : gmap string file;
  has_pypdf2 : bool;
  stdout : list string
}.

Definition M (A : Type) : Type := world -> (stop + A) * world.

#[export] Instance M_ret : MRet M := fun A (a : A) w => (inr a, w).

#[export] Instance M_bind : MBind M := fun A B (f : A -> M B) (m : M A) w =>
  match m w with
  | (inl e, w') => (inl e, w')
  | (inr a, w') => f a w'
  end.

Definition raise {A : Type} (e : stop) : M A := fun w => (inl e, w).

Definition print (line : string) : M unit := fun w =>
  (inr tt, World (files w) (has_pypdf2 w) (stdout w ++ [line])).

(** [os.path.exists(path)] *)
Definition exists_ (path : string) : M bool := fun w =>
  (inr (bool_decide (is_Some (files w !! path))), w).

(** [shutil.copy2(src, dst)]; it is only called on a [src] that exists. *)
Definition copy2 (src dst : string) : M unit := fun w =>
  match files w !! src with
  | Some f => (inr tt, World (<[dst := f]> (files w)) (has_pypdf2 w) (stdout w))
  | None => (inr tt, w)
  end.

(** [PdfReader(path).pages] *)
Definition reader_pages (path : string) : M (list page) := fun w =>
  match files w !! path with
  | Some (PdfFile pages) => (inr pages, w)
  | _ => (inl (PdfReadError path), w)
  end.

(** [pages[i]] *)
Definition page_at (pages : list page) (i : nat) : M page :=
  match pages !! i with
  | Some p => mret p
  | None => raise (IndexError i)
  end.

(** [for page_num in range(num_pages): writer.add_page(reader.pages[page_num])],
    the pages of the writer being the accumulator. *)
Fixpoint add_pages (pages : list page) (page_nums : list nat)
    (writer : list page) : M (list page) :=
  match page_nums with
  | [] => mret writer
  | page_num :: rest =>
      p ← page_at pages page_num;
      add_pages pages rest (writer ++ [p])
  end.

(** [with open(path, 'wb') as output_file: writer.write(output_file)] *)
Definition write_pdf (path : string) (writer : list page) : M unit := fun w =>
  (inr tt, World (<[path := PdfFile writer]> (files w)) (has_pypdf2 w) (stdout w)).

(** [pdf_name.replace('.pdf', '') if pdf_name.endswith('.pdf') else pdf_name] *)
Definition base_name (pdf_name : string) : string :=
  if Text.endswith ".pdf" pdf_name then Text.replace ".pdf" EmptyString pdf_name
  else pdf_name.

Definition input_file (pdf_name : string) : string := base_name pdf_name +:+ ".pdf".

Definition backup_file (pdf_name : string) : string :=
  base_name pdf_name +:+ "_with_ref.pdf".

Definition process_pdf (pdf_name : string) : M unit :=
  found ← exists_ (input_file pdf_name);
  (if negb found
   then print ("Error: " +:+ input_file pdf_name +:+ " not found!") ;;
        raise (SystemExit 1)
   else mret tt) ;;
  copy2 (input_file pdf_name) (backup_file pdf_name) ;;
  print ("Copied " +:+ input_file pdf_name +:+ " to " +:+ backup_file pdf_name) ;;
  pages ← reader_pages (backup_file pdf_name);
  let num_pages := length pages `min` 5 in
  writer ← add_pages pages (seq 0 num_pages) [];
  write_pdf (input_file pdf_name) writer ;;
  print ("Success! Kept " +:+ pretty num_pages +:+ " pages in " +:+ input_file pdf_name).

(** [check_requirements()]: [shutil] is always there. *)
Definition check_requirements : M (list string) := fun w =>
  (inr (if has_pypdf2 w then [] else ["PyPDF2"]), w).

(** [for module in missing: print(f"  - {module}")] *)
Fixpoint print_modules (missing : list string) : M unit :=
  match missing with
  | [] => mret tt
  | module :: rest => print ("  - " +:+ module) ;; print_modules rest
  end.

(** [main()] with [sys.argv] *)
Definition main (argv : list string) : M unit :=
  match argv with
  | _ :: pdf_name :: _ =>
      missing ← check_requirements;
      match missing with
      | [] => print "All requirements satisfied." ;; process_pdf pdf_name
      | _ =>
          print "Missing required modules:" ;;
          print_modules missing ;;
          (if bool_decide ("PyPDF2" ∈ missing)
           then print (String Text.newline "Please install PyPDF2 using:") ;;
                print "  pip install PyPDF2"
           else mret tt) ;;
          raise (SystemExit 1)
      end
  | _ =>
      print "Usage: python split-pdf.py <pdf_name>" ;;
      print "Example: python split-pdf.py main.pdf" ;;
      raise (SystemExit 1)
  end.

(** The exit status of the process. *)
Definition exit_status (r : stop + unit) : Z :=
  match r with
  | inr _ => 0%Z
  | inl (SystemExit status) => status
  | inl _ => 1%Z
  end.

End Pdf.

Arguments file : clear implicits.
Arguments world : clear implicits.

End SplitPdf.

(** ** Notions of the specification

    These follow the words of the specification, not the code; the
    theorems below compare the code with them. *)

Module Spec.

(** The first and the last character of a text. *)
Definition first_char (s : string) : option ascii :=
  match s with
  | String c _ => Some c
  | EmptyString => None
  end.

Fixpoint last_char (s : string) : option ascii :=
  match s with
  | EmptyString => None
  | String c EmptyString => Some c
  | String _ s' => last_char s'
  end.

(** No leading and no trailing whitespace. *)
Definition trimmed (s : string) : Prop :=
  (∀ c, first_char s = Some c → Text.isspace c = false) ∧
  (∀ c, last_char s = Some c → Text.isspace c = false).

(** The lines of a text. *)
Definition lines (s : string) : list string := Text.split Text.newline s.

Definition is_blank (line : string) : bool :=
  match line with
  | EmptyString => true
  | String _ _ => false
  end.

(** The maximal runs of lines between blank lines. *)
Fixpoint runs (ls : list string) : list (list string) :=
  match ls with
  | [] => []
  | l :: rest =>
      if is_blank l then runs rest
      else match rest with
           | [] => [[l]]
           | l' :: _ =>
               if is_blank l' then [l] :: runs rest
               else match runs rest with
                    | r :: rs => (l :: r) :: rs
                    | [] => [[l]]
                    end
           end
  end.

(** The blank-line-separated blocks of a text, each with its own line
    breaks. *)
Definition blocks (s : string) : list string :=
  Text.join (String Text.newline EmptyString) <$> runs (lines s).

(** A text without a blank line in it: it is not empty, it neither starts
    nor ends with a line break, and no two line breaks follow each other. *)
Definition no_blank_line (s : string) : Prop :=
  Forall (fun l => is_blank l = false) (lines s).

(** The text of the last match whose trimmed key is [key]. *)
Definition later_block (key : string) (matches : list (string * string))
    : option string :=
  fst <$> last (filter (fun m => Text.strip m.2 = key) matches).

(** [p] occurs in [s] at position [i]. *)
Definition occurs_at (p s : string) (i : nat) : bool :=
  Text.startswith p (Text.drop i s).

(** Position [j] of [s] lies inside an occurrence of [p]. *)
Definition covered (p s : string) (j : nat) : bool :=
  existsb (fun i => (j <? i + String.length p)%nat && occurs_at p s i) (seq 0 (S j)).

(** [s] without the characters of any occurrence of [p]; [rest] is [s] from
    position [j] on. *)
Fixpoint keep_uncovered (p s : string) (j : nat) (rest : string) : string :=
  match rest with
  | EmptyString => EmptyString
  | String c rest' =>
      if covered p s j then keep_uncovered p s (S j) rest'
      else String c (keep_uncovered p s (S j) rest')
  end.

Definition remove_occurrences (p s : string) : string := keep_uncovered p s 0 s.

(** The entries whose key is cited and has a record, in the order in which
    the citation keys are enumerated. *)
Definition cited_entries (bib_entries : gmap string string)
    (order : list string) : BibSort.odict :=
  omap (fun k => pair k <$> bib_entries !! k) order.

(** The raw texts one after the other, each followed by an empty line. *)
Fixpoint serialized (entries : list string) : string :=
  match entries with
  | [] => EmptyString
  | entry :: rest => entry +:+ BibSort.nl2 +:+ serialized rest
  end.

(** A document in which no citation command is recognized. *)
Definition no_citation_command (content : string) : Prop :=
  Forall (fun pattern => Re.findall1 pattern content = []) BibSort.citation_patterns.

(** A text without the character [c]. *)
Fixpoint lacks (c : ascii) (s : string) : Prop :=
  match s with
  | EmptyString => True
  | String a s' => a ≠ c ∧ lacks c s'
  end.

(** How far a scan of [s] for [old] is at position [j] with [skip]
    characters to pass: either no occurrence that started before reaches
    [j], or one does and ends [skip] characters further. *)
Definition scan_state (old s : string) (j skip : nat) : Prop :=
  (skip = 0 ∧ ∀ i, i < j → j < i + String.length old → occurs_at old s i = false) ∨
  (0 < skip ∧ ∃ i, i < j ∧ i + String.length old = j + skip ∧ occurs_at old s i = true).

(** A text whose characters are all in a class. *)
Fixpoint all_chars (p : ascii -> bool) (s : string) : Prop :=
  match s with
  | EmptyString => True
  | String a s' => p a = true ∧ all_chars p s'
  end.

(** The names of the recognized citation commands. *)
Definition command_names : list string :=
  ["cite"; "citep"; "citet"; "citeauthor"; "citeyear"; "citeyearpar";
   "autocite"; "nocite"].

(** The command [name] with the argument [arg] occurs in [content]. *)
Definition command_occurs (name arg content : string) : Prop :=
  ∃ before after,
    content = before +:+ String BibSort.backslash (name +:+ "{") +:+ arg
                +:+ String "}" after.

(** The lines printed before the output file is opened. *)
Definition progress (doc bib : string) (kept : nat) : list string :=
  [ "Extracting citations from " +:+ BibSort.tex_file +:+ "...";
    "Found " +:+ pretty (size (BibSort.citations_of doc)) +:+ " unique citations";
    "Parsing bibliography entries from " +:+ BibSort.bib_file +:+ "...";
    "Found " +:+ pretty (size (BibSort.entries_of bib)) +:+ " entries in bibliography";
    "Filtering and sorting entries...";
    "Kept " +:+ pretty kept +:+ " cited entries";
    "Writing processed bibliography to " +:+ BibSort.output_file +:+ "..." ].

(** A world in which a run of the reconciler can read both inputs and open
    the output. *)
Definition readable (w : BibSort.world) : Prop :=
  ∃ doc bib,
    BibSort.files w !! BibSort.tex_file = Some (BibSort.TextFile doc) ∧
    BibSort.files w !! BibSort.bib_file = Some (BibSort.TextFile bib) ∧
    BibSort.output_file ∉ BibSort.locked w.

(** What is left of [t] after a line break, optional whitespace and a
    closing brace, when [t] starts with these. *)
Definition closes (t : string) : option string :=
  match t with
  | String a t' =>
      if Ascii.eqb Text.newline a then
        match Text.lstrip t' with
        | String b r => if Ascii.eqb "}" b then Some r else None
        | EmptyString => None
        end
      else None
  | EmptyString => None
  end.

(** The end of an entry: a line break, whitespace, the closing brace. *)
Definition closing (ws : string) : string :=
  String Text.newline ws +:+ String "}" EmptyString.

(** A block that is an entry with the key [name] on its own, whatever
    surrounds it: it has the shape of an entry, and its closing brace is the
    first one that stands alone on its line after the comma. *)
Definition entry_block (full name : string) : Prop :=
  ∃ ty body ws,
    full = String "@" ty +:+ String "{" name +:+ String "," body +:+ closing ws ∧
    ty ≠ EmptyString ∧ all_chars Text.isword ty ∧
    name ≠ EmptyString ∧ all_chars BibSort.key_char name ∧
    all_chars Text.isspace ws ∧
    ∀ u v, body = u +:+ v → v ≠ EmptyString → closes (v +:+ closing ws) = None.

(** The match of the last block with the key [key]. *)
Definition pick (key : string) (matches : list (string * string))
    : option (string * string) :=
  last (filter (fun m => Text.strip m.2 = key) matches).

End Spec.

(** ** Sample inputs *)

Module Sample.

Import BibSort.

Definition unlines (l : list string) : string :=
  Text.join (String Text.newline EmptyString) l.

Definition entry_A : string := unlines ["@article{A,"; "  title={Alpha}"; "}"].
Definition entry_B : string := unlines ["@book{B,"; "  title={Beta}"; "}"].
Definition entry_C : string := unlines ["@misc{C,"; "  title={Gamma}"; "}"].
Definition entry_D : string := unlines ["@misc{D,"; "  title={Delta}"; "}"].

(** Four entries with distinct keys. *)
Definition ref_bib : string :=
  unlines [entry_A; EmptyString; entry_B; EmptyString; entry_C; EmptyString; entry_D].

(** [C] is cited first, [A] and [B] together later; [D] is not cited. *)
Definition main_tex : string :=
  unlines ["See \cite{C} first."; "Then \citep{A,B}, and \cite{C} again."].

(** A document without a citation command. *)
Definition plain_tex : string := "Nothing is cited here.".

(** A document with an empty piece between two commas. *)
Definition gap_tex : string := "As shown in \cite{a,,b}.".

(** The key [A] twice, the second time with another text. *)
Definition entry_A' : string := unlines ["@article{ A ,"; "  title={Alpha, revised}"; "}"].

Definition twice_bib : string := unlines [entry_A; EmptyString; entry_B; EmptyString; entry_A'].

(** An entry with an empty line between two fields. *)
Definition entry_gap : string :=
  unlines ["@misc{G,"; "  title={Gap},"; EmptyString; "  year={2020}"; "}"].

(** An entry on one line with a comma in it. *)
Definition one_line : string := "@string{acm = {ACM, Inc}}".

(** The key [A] twice, with the one-line entry in between. *)
Definition swallow_bib : string :=
  unlines [entry_A; EmptyString; one_line; EmptyString; entry_A'].

Definition world_of (tex bib : string) : world :=
  World (<[tex_file := TextFile tex]> (<[bib_file := TextFile bib]> ∅)) ∅ [].

Definition empty_world : world := World ∅ ∅ [].

(** An order of enumeration: the elements in the order of [String.le]. *)
Definition ascending (s : gset string) : list string :=
  merge_sort String.le (elements s).

End Sample.

(** ** Facts about the string primitives *)

Module TextFacts.

Import Text Spec.

Lemma lstrip_first s c : first_char (lstrip s) = Some c → isspace c = false.
Proof.
  induction s as [|a s IH]; simpl; [done|].
  destruct (isspace a) eqn:Ha; [done|].
  simpl. intros [= <-]. done.
Qed.

Lemma rstrip_cons a s :
  rstrip (String a s) = EmptyString ∨ ∃ r, rstrip (String a s) = String a r.
Proof.
  simpl. destruct (rstrip s); [destruct (isspace a)|]; eauto.
Qed.

Lemma rstrip_first s c : first_char (rstrip s) = Some c → first_char s = Some c.
Proof.
  destruct s as [|a s]; [done|].
  destruct (rstrip_cons a s) as [->|[r ->]]; done.
Qed.

Lemma rstrip_last s c : last_char (rstrip s) = Some c → isspace c = false.
Proof.
  induction s as [|a s IH]; simpl; [done|].
  destruct (rstrip s) as [|b r] eqn:Hr.
  - destruct (isspace a) eqn:Ha; simpl; [done|]. by intros [= <-].
  - simpl in *. done.
Qed.

Lemma strip_trimmed s : trimmed (strip s).
Proof.
  split; intros c Hc.
  - apply (lstrip_first s). by apply rstrip_first.
  - by apply (rstrip_last (lstrip s)).
Qed.

(** Stripping a trimmed text changes nothing. *)
Lemma lstrip_id s : (∀ c, first_char s = Some c → isspace c = false) → lstrip s = s.
Proof.
  destruct s as [|a s]; [done|]. intros H. simpl. by rewrite (H a).
Qed.

Lemma rstrip_id s : (∀ c, last_char s = Some c → isspace c = false) → rstrip s = s.
Proof.
  induction s as [|a s IH]; [done|]. intros H. simpl.
  destruct s as [|b s].
  - simpl. by rewrite (H a).
  - rewrite IH; [done|]. intros c Hc. by apply H.
Qed.

Lemma strip_idemp s : strip (strip s) = strip s.
Proof.
  destruct (strip_trimmed s) as [Hf Hl]. unfold strip at 1.
  rewrite lstrip_id by done. by apply rstrip_id.
Qed.

(** [split] and [join] *)

Lemma split_nonempty sep s : split sep s ≠ [].
Proof.
  destruct s as [|c s]; simpl; [done|].
  destruct (Ascii.eqb c sep); [done|]. by destruct (split sep s).
Qed.

Lemma split_app sep a b :
  split sep (a +:+ String sep b) = split sep a ++ split sep b.
Proof.
  induction a as [|c a IH]; simpl.
  - by rewrite Ascii.eqb_refl.
  - destruct (Ascii.eqb c sep); [by rewrite IH|].
    rewrite IH. pose proof (split_nonempty sep a).
    by destruct (split sep a).
Qed.

Lemma join_split sep s : join (String sep EmptyString) (split sep s) = s.
Proof.
  induction s as [|c s IH]; simpl; [done|].
  destruct (Ascii.eqb c sep) eqn:Hc.
  - apply Ascii.eqb_eq in Hc as ->.
    pose proof (split_nonempty sep s).
    destruct (split sep s) as [|x l] eqn:Hs; [done|].
    simpl in *. by rewrite IH.
  - pose proof (split_nonempty sep s).
    destruct (split sep s) as [|x l] eqn:Hs; [done|].
    destruct l as [|y l]; simpl in *; by rewrite <- IH.
Qed.

(** Concatenation *)

Lemma str_app_assoc (a b c : string) : (a +:+ b) +:+ c = a +:+ (b +:+ c).
Proof.
  induction a as [|x a IH]; [done|].
  change (String x ((a +:+ b) +:+ c) = String x (a +:+ b +:+ c)). by rewrite IH.
Qed.

Lemma str_app_nil_r (a : string) : a +:+ EmptyString = a.
Proof.
  induction a as [|x a IH]; [done|].
  change (String x (a +:+ EmptyString) = String x a). by rewrite IH.
Qed.

(** Prefixes and suffixes *)

Lemma startswith_spec p s : startswith p s = true ↔ ∃ r, s = p +:+ r.
Proof.
  revert s. induction p as [|a p IH]; intros s; simpl.
  - split; [eauto|done].
  - destruct s as [|b s].
    + split; [done|]. by intros [r ?].
    + rewrite andb_true_iff, Ascii.eqb_eq, IH. split.
      * intros [-> [r ->]]. by exists r.
      * intros [r [= -> ->]]. eauto.
Qed.

Lemma rev_app_spec s t : String.rev_app s t = String.rev s +:+ t.
Proof.
  revert t. induction s as [|a s IH]; intros t; [done|].
  unfold String.rev. simpl. rewrite (IH (String a t)), (IH (String a EmptyString)).
  by rewrite str_app_assoc.
Qed.

Lemma rev_cons a s : String.rev (String a s) = String.rev s +:+ String a EmptyString.
Proof. unfold String.rev at 1. simpl. apply rev_app_spec. Qed.

Lemma rev_append s t : String.rev (s +:+ t) = String.rev t +:+ String.rev s.
Proof.
  induction s as [|a s IH].
  - simpl. by rewrite str_app_nil_r.
  - change (String a s +:+ t) with (String a (s +:+ t)).
    by rewrite !rev_cons, IH, str_app_assoc.
Qed.

Lemma rev_involutive s : String.rev (String.rev s) = s.
Proof.
  induction s as [|a s IH]; [done|].
  by rewrite rev_cons, rev_append, IH.
Qed.

(** [endswith] holds exactly of the texts that end with the suffix. *)
Lemma endswith_spec p s : endswith p s = true ↔ ∃ stem, s = stem +:+ p.
Proof.
  unfold endswith. rewrite startswith_spec. split.
  - intros [r Hr]. exists (String.rev r).
    by rewrite <- (rev_involutive s), Hr, rev_append, rev_involutive.
  - intros [stem ->]. exists (String.rev stem). apply rev_append.
Qed.

(** Positions *)

Lemma drop_0 s : drop 0 s = s.
Proof. by destruct s. Qed.

Lemma drop_step j s c rest : drop j s = String c rest → drop (S j) s = rest.
Proof.
  revert s. induction j as [|j IH]; intros s H.
  - rewrite drop_0 in H. subst s. simpl. apply drop_0.
  - destruct s as [|a s]; [done|]. simpl in *. by apply IH.
Qed.

Lemma drop_plus j d s : drop (j + d) s = drop d (drop j s).
Proof.
  revert s. induction j as [|j IH]; intros s; simpl.
  - by rewrite ?drop_0.
  - destruct s as [|a s]; [by destruct d|]. apply IH.
Qed.

Lemma covered_spec p s j :
  covered p s j = true ↔
  ∃ i, i ≤ j ∧ j < i + String.length p ∧ occurs_at p s i = true.
Proof.
  unfold covered. rewrite existsb_exists. split.
  - intros (i & Hi & H). apply in_seq in Hi.
    apply andb_true_iff in H as [H1 H2]. apply Nat.ltb_lt in H1.
    exists i. repeat split; [lia|done|done].
  - intros (i & Hi & Hj & H). exists i. split; [apply in_seq; lia|].
    apply andb_true_iff. split; [by apply Nat.ltb_lt|done].
Qed.

Lemma covered_false p s j :
  (∀ i, i ≤ j → j < i + String.length p → occurs_at p s i = false) →
  covered p s j = false.
Proof.
  intros H. apply not_true_is_false. intros Hc.
  apply covered_spec in Hc as (i & Hi & Hj & Ho).
  by rewrite (H i Hi Hj) in Ho.
Qed.

(** Replacing by nothing a text whose occurrences cannot overlap *)

Section Replace.

Variables (a : ascii) (o : string).

Abbreviation old := (String a o).

(** Two occurrences of [old] never share a character. *)
Hypothesis apart : ∀ s i d,
  0 < d < String.length old → occurs_at old s i = true →
  occurs_at old s (i + d) = false.

Lemma replace_go_skip new c s n :
  replace_go old new (String c s) (S n) = replace_go old new s n.
Proof. done. Qed.

Lemma replace_go_look new c s :
  replace_go old new (String c s) 0 =
  if startswith old (String c s)
  then new +:+ replace_go old new s (String.length o)
  else String c (replace_go old new s 0).
Proof. simpl. by rewrite Nat.sub_0_r. Qed.

Lemma replace_go_uncovered s : ∀ rest j skip,
  drop j s = rest → scan_state old s j skip →
  replace_go old EmptyString rest skip = keep_uncovered old s j rest.
Proof.
  induction rest as [|c rest IH]; intros j skip Hdrop Hstate; [by destruct skip|].
  pose proof (drop_step _ _ _ _ Hdrop) as Hnext.
  destruct skip as [|n].
  - destruct Hstate as [[_ Hfree]|[? _]]; [|lia].
    rewrite replace_go_look. cbn [keep_uncovered].
    destruct (startswith old (String c rest)) eqn:Hocc.
    + assert (occurs_at old s j = true) as Hj by (unfold occurs_at; by rewrite Hdrop).
      assert (covered old s j = true) as ->.
      { apply covered_spec. exists j. simpl. repeat split; [lia|lia|done]. }
      change (EmptyString +:+ ?x) with x.
      apply IH; [done|].
      destruct (decide (String.length o = 0)) as [Hz|Hnz].
      * left. split; [done|]. intros i Hi Hlen. simpl in Hlen. lia.
      * right. split; [lia|]. exists j. simpl. repeat split; [lia|lia|done].
    + assert (occurs_at old s j = false) as Hj by (unfold occurs_at; by rewrite Hdrop).
      rewrite covered_false.
      * f_equal. apply IH; [done|]. left. split; [done|].
        intros i Hi Hlen. destruct (decide (i = j)) as [->|]; [done|].
        apply Hfree; lia.
      * intros i Hi Hlen. destruct (decide (i = j)) as [->|]; [done|].
        apply Hfree; [lia|done].
  - destruct Hstate as [[? _]|[_ (i & Hi & Hlen & Hocc)]]; [lia|].
    rewrite replace_go_skip. cbn [keep_uncovered].
    assert (covered old s j = true) as ->.
    { apply covered_spec. exists i. repeat split; [lia|lia|done]. }
    apply IH; [done|]. destruct n as [|n].
    + left. split; [done|]. intros i' Hi' Hlen'.
      destruct (decide (i' ≤ i)) as [Hle|Hgt].
      * lia.
      * replace i' with (i + (i' - i)) by lia. apply apart; [lia|done].
    + right. split; [lia|]. exists i. repeat split; [lia|lia|done].
Qed.

(** [replace] by nothing removes exactly the characters of the occurrences. *)
Lemma replace_removes_occurrences s :
  replace old EmptyString s = remove_occurrences old s.
Proof.
  unfold replace, remove_occurrences.
  apply replace_go_uncovered; [apply drop_0|].
  left. split; [done|]. intros i Hi. lia.
Qed.

End Replace.

(** Two occurrences of [.pdf] never share a character: only the first
    character of [.pdf] is a dot. *)
Lemma pdf_apart s i d :
  0 < d < String.length ".pdf" → occurs_at ".pdf" s i = true →
  occurs_at ".pdf" s (i + d) = false.
Proof.
  unfold occurs_at. intros Hd H. rewrite drop_plus.
  apply startswith_spec in H as [r ->]. simpl in Hd.
  destruct d as [|[|[|[|d]]]]; try lia; done.
Qed.

Lemma replace_pdf s :
  replace ".pdf" EmptyString s = remove_occurrences ".pdf" s.
Proof. apply replace_removes_occurrences. apply pdf_apart. Qed.

End TextFacts.

(** ** Facts about the matcher *)

Module ReFacts.

Import Re Spec TextFacts.

Lemma star_greedy_inv p s k res :
  star_greedy p s k = Some res →
  ∃ s', k s' = Some res ∧ String.length s' ≤ String.length s.
Proof.
  induction s as [|a s IH]; simpl; intros H.
  - by exists EmptyString.
  - destruct (p a).
    + destruct (star_greedy p s k) as [r|] eqn:E.
      * injection H as <-. destruct (IH eq_refl) as (s' & Hk & Hlen).
        exists s'. split; [done|lia].
      * by exists (String a s).
    + by exists (String a s).
Qed.

Lemma star_lazy_inv p s k res :
  star_lazy p s k = Some res →
  ∃ s', k s' = Some res ∧ String.length s' ≤ String.length s.
Proof.
  induction s as [|a s IH]; simpl; intros H.
  - destruct (k EmptyString) eqn:E; [|done]. injection H as <-. by exists EmptyString.
  - destruct (k (String a s)) eqn:E; [injection H as <-; by exists (String a s)|].
    destruct (p a); [|done].
    destruct (IH H) as (s' & Hk & Hlen). exists s'. split; [done|lia].
Qed.

(** A match ends inside the input: the continuation is called on what is
    left of it. *)
Lemma run_inv r : ∀ s c k res,
  run r s c k = Some res →
  ∃ s' c', k s' c' = Some res ∧ String.length s' ≤ String.length s.
Proof.
  induction r as [a|p|r1 IH1 r2 IH2|p|p|p|n r IH]; intros s c k res H; simpl in H.
  - destruct s as [|b s]; [done|]. destruct (Ascii.eqb a b); [|done].
    exists s, c. split; [done|simpl; lia].
  - destruct s as [|b s]; [done|]. destruct (p b); [|done].
    exists s, c. split; [done|simpl; lia].
  - destruct (IH1 _ _ _ _ H) as (s1 & c1 & H1 & Hlen1).
    destruct (IH2 _ _ _ _ H1) as (s2 & c2 & H2 & Hlen2).
    exists s2, c2. split; [done|lia].
  - destruct s as [|b s]; [done|]. destruct (p b); [|done].
    destruct (star_greedy_inv _ _ _ _ H) as (s' & Hk & Hlen).
    exists s', c. split; [done|simpl; lia].
  - destruct (star_greedy_inv _ _ _ _ H) as (s' & Hk & Hlen). by exists s', c.
  - destruct (star_lazy_inv _ _ _ _ H) as (s' & Hk & Hlen). by exists s', c.
  - destruct (IH _ _ _ _ H) as (s' & c' & Hk & Hlen). eauto.
Qed.

(** A pattern that starts with a literal never matches the empty text. *)
Lemma match_at_head_shrinks a r s rest c :
  match_at (Cat (Lit a) r) s = Some (rest, c) →
  String.length rest < String.length s.
Proof.
  unfold match_at. simpl. destruct s as [|b s]; [done|].
  destruct (Ascii.eqb a b); [|done]. intros H.
  destruct (run_inv _ _ _ _ _ H) as (s' & c' & [= -> ->] & Hlen). simpl. lia.
Qed.

Lemma run_lit w r s c k :
  run (lit w r) s c k =
  if Text.startswith w s then run r (Text.drop (String.length w) s) c k else None.
Proof.
  revert s. induction w as [|a w IH]; intros s; simpl.
  - by rewrite ?drop_0.
  - destruct s as [|b s]; [done|]. destruct (Ascii.eqb a b); [|done]. apply IH.
Qed.

Lemma all_chars_not_char a s : all_chars (not_char a) s ↔ lacks a s.
Proof.
  induction s as [|b s IH]; simpl; [done|]. rewrite IH. unfold not_char.
  rewrite negb_true_iff, Ascii.eqb_neq. done.
Qed.

(** A text is all in the class, or has a first character outside it. *)
Lemma span_cases p s :
  all_chars p s ∨
  ∃ arg c0 rest, s = arg +:+ String c0 rest ∧ all_chars p arg ∧ p c0 = false.
Proof.
  induction s as [|a s IH]; [by left|].
  destruct (p a) eqn:Ha.
  - destruct IH as [Hall|(arg & c0 & rest & -> & Harg & Hc0)].
    + left. done.
    + right. exists (String a arg), c0, rest. done.
  - right. exists EmptyString, a, s. done.
Qed.

(** A greedy repetition before something that cannot start inside the class
    stops at the first character outside the class. *)
Lemma star_greedy_stop p arg c0 rest k :
  all_chars p arg → p c0 = false →
  (∀ c s', p c = true → k (String c s') = None) →
  star_greedy p (arg +:+ String c0 rest) k = k (String c0 rest).
Proof.
  intros Harg Hc0 Hk. induction arg as [|a arg IH]; simpl.
  - by rewrite Hc0.
  - destruct Harg as [Ha Harg]. rewrite Ha. rewrite (IH Harg).
    destruct (k (String c0 rest)); [done|]. by rewrite Hk.
Qed.

Lemma star_greedy_all p s k :
  all_chars p s →
  (∀ c s', p c = true → k (String c s') = None) →
  star_greedy p s k = k EmptyString.
Proof.
  intros Hs Hk. induction s as [|a s IH]; simpl; [done|].
  destruct Hs as [Ha Hs]. rewrite Ha, (IH Hs).
  destruct (k EmptyString); [done|]. by rewrite Hk.
Qed.

Lemma length_append (a b : string) :
  String.length (a +:+ b) = String.length a + String.length b.
Proof. induction a as [|x a IH]; simpl; [done|]. by rewrite IH. Qed.

Lemma take_append (a b : string) : Text.take (String.length a) (a +:+ b) = a.
Proof. induction a as [|x a IH]; simpl; [by destruct b|]. by rewrite IH. Qed.

Lemma consumed_append (a b : string) : consumed (a +:+ b) b = a.
Proof.
  unfold consumed. rewrite length_append.
  replace (String.length a + String.length b - String.length b)
    with (String.length a) by lia.
  apply take_append.
Qed.

Lemma consumed_cons x (a b : string) : consumed (String x (a +:+ b)) b = String x a.
Proof. exact (consumed_append (String x a) b). Qed.

Lemma drop_append (a b : string) : Text.drop (String.length a) (a +:+ b) = b.
Proof. induction a as [|x a IH]; simpl; [apply drop_0|]. exact IH. Qed.

Lemma not_brace_sym ch : not_char "}" ch = true → Ascii.eqb "}" ch = false.
Proof.
  unfold not_char. rewrite negb_true_iff, !Ascii.eqb_neq. congruence.
Qed.

Lemma not_brace_false ch : not_char "}" ch = false → ch = "}"%char.
Proof. unfold not_char. rewrite negb_false_iff. apply Ascii.eqb_eq. Qed.

(** The argument of a command: at least one character other than the
    closing brace, up to the first closing brace. *)
Lemma run_argument s (c : caps) k res :
  run (Cat (Group 1 (Plus (not_char "}"))) (Lit "}")) s c k = Some res ↔
  ∃ arg rest,
    arg ≠ EmptyString ∧ lacks "}" arg ∧
    s = arg +:+ String "}" rest ∧ k rest (<[1 := arg]> c) = Some res.
Proof.
  cbn [run]. split.
  - destruct s as [|b s]; [done|].
    destruct (not_char "}" b) eqn:Hb; [|done].
    destruct (span_cases (not_char "}") s) as [Hall|(arg & c0 & rest & -> & Harg & Hc0)].
    + rewrite star_greedy_all; [done|done|].
      intros ch s' Hch. by rewrite (not_brace_sym ch Hch).
    + rewrite star_greedy_stop; [|done|done|].
      * apply not_brace_false in Hc0 as ->. rewrite Ascii.eqb_refl.
        rewrite consumed_cons. intros Hk.
        exists (String b arg), rest. split; [done|]. split; [|done].
        apply all_chars_not_char. done.
      * intros ch s' Hch. by rewrite (not_brace_sym ch Hch).
  - intros (arg & rest & Hne & Harg & -> & Hk).
    destruct arg as [|b arg]; [done|].
    apply all_chars_not_char in Harg as [Hb Harg].
    change (String b arg +:+ String "}" rest) with (String b (arg +:+ String "}" rest)).
    cbv iota. rewrite Hb.
    rewrite star_greedy_stop; [|done|by unfold not_char; rewrite Ascii.eqb_refl|].
    + rewrite Ascii.eqb_refl.
      by rewrite consumed_cons.
    + intros ch s' Hch. by rewrite (not_brace_sym ch Hch).
Qed.

(** What a recognized citation command is: the backslash, the name of the
    command, an opening brace, an argument of at least one character without
    a closing brace, and the closing brace.  The group is the argument. *)
Lemma citation_match name s rest c :
  match_at (BibSort.citation_pattern name) s = Some (rest, c) ↔
  ∃ arg,
    arg ≠ EmptyString ∧ lacks "}" arg ∧
    s = String BibSort.backslash (name +:+ "{") +:+ arg +:+ String "}" rest ∧
    c = {[1 := arg]}.
Proof.
  unfold match_at, BibSort.citation_pattern. rewrite run_lit.
  destruct (Text.startswith _ s) eqn:Hs.
  - apply startswith_spec in Hs as [s1 ->]. rewrite drop_append, run_argument.
    split.
    + intros (arg & rest' & Hne & Harg & -> & [= -> <-]). by exists arg.
    + intros (arg & Hne & Harg & Heq & ->). apply (inj (String.app _)) in Heq as ->.
      by exists arg, rest.
  - split; [done|]. intros (arg & _ & _ & -> & _).
    assert (Text.startswith (String BibSort.backslash (name +:+ "{"))
              (String BibSort.backslash (name +:+ "{") +:+ arg +:+ String "}" rest)
            = true) as H by (apply startswith_spec; eauto).
    congruence.
Qed.

(** What each construct takes from the input *)

Lemma star_greedy_takes p s k res :
  star_greedy p s k = Some res →
  ∃ pre s', s = pre +:+ s' ∧ all_chars p pre ∧ k s' = Some res.
Proof.
  induction s as [|a s IH]; simpl; intros H.
  - by exists EmptyString, EmptyString.
  - destruct (p a) eqn:Ha; [|by exists EmptyString, (String a s)].
    destruct (star_greedy p s k) as [r|] eqn:E; [|by exists EmptyString, (String a s)].
    injection H as <-. destruct (IH eq_refl) as (pre & s' & -> & Hpre & Hk).
    by exists (String a pre), s'.
Qed.

Lemma star_lazy_takes p s k res :
  star_lazy p s k = Some res →
  ∃ pre s', s = pre +:+ s' ∧ all_chars p pre ∧ k s' = Some res.
Proof.
  induction s as [|a s IH]; simpl; intros H.
  - destruct (k EmptyString) eqn:E; [|done]. injection H as <-.
    by exists EmptyString, EmptyString.
  - destruct (k (String a s)) eqn:E.
    + injection H as <-. by exists EmptyString, (String a s).
    + destruct (p a) eqn:Ha; [|done].
      destruct (IH H) as (pre & s' & -> & Hpre & Hk).
      by exists (String a pre), s'.
Qed.

Lemma run_Lit a s c k res :
  run (Lit a) s c k = Some res → ∃ s', s = String a s' ∧ k s' c = Some res.
Proof.
  simpl. destruct s as [|b s]; [done|].
  destruct (Ascii.eqb a b) eqn:E; [|done].
  apply Ascii.eqb_eq in E as ->. eauto.
Qed.

Lemma run_Plus p s c k res :
  run (Plus p) s c k = Some res →
  ∃ pre s', pre ≠ EmptyString ∧ all_chars p pre ∧ s = pre +:+ s' ∧ k s' c = Some res.
Proof.
  simpl. destruct s as [|b s]; [done|]. destruct (p b) eqn:Hb; [|done].
  intros H. apply star_greedy_takes in H as (pre & s' & -> & Hpre & Hk).
  by exists (String b pre), s'.
Qed.

Lemma run_Star p s c k res :
  run (Star p) s c k = Some res →
  ∃ pre s', all_chars p pre ∧ s = pre +:+ s' ∧ k s' c = Some res.
Proof.
  simpl. intros H. apply star_greedy_takes in H as (pre & s' & -> & Hpre & Hk).
  by exists pre, s'.
Qed.

Lemma run_StarLazy p s c k res :
  run (StarLazy p) s c k = Some res →
  ∃ pre s', all_chars p pre ∧ s = pre +:+ s' ∧ k s' c = Some res.
Proof.
  simpl. intros H. apply star_lazy_takes in H as (pre & s' & -> & Hpre & Hk).
  by exists pre, s'.
Qed.

Lemma run_Cat r1 r2 s c k :
  run (Cat r1 r2) s c k = run r1 s c (fun s' c' => run r2 s' c' k).
Proof. done. Qed.

Lemma run_Group n r s c k :
  run (Group n r) s c k = run r s c (fun s' c' => k s' (<[n := consumed s s']> c')).
Proof. done. Qed.

(** Go on with the next construct of a sequence. *)
Ltac next_in H := cbv beta in H; rewrite ?run_Cat in H.

(** The shape of a block that the entry pattern matches: the marker, a type
    of word characters, the opening brace, a key without comma and line
    break, a comma, a body, and a line with only whitespace before the
    closing brace.  Group 1 is the block and group 2 the key. *)
Lemma entry_match_shape s rest c :
  match_at BibSort.entry_pattern s = Some (rest, c) →
  ∃ ty key body ws,
    ty ≠ EmptyString ∧ all_chars Text.isword ty ∧
    key ≠ EmptyString ∧ all_chars BibSort.key_char key ∧
    all_chars Text.isspace ws ∧
    s = (String "@" ty +:+ String "{" key +:+ String "," body
           +:+ String Text.newline ws +:+ String "}" EmptyString) +:+ rest ∧
    group 1 c = String "@" ty +:+ String "{" key +:+ String "," body
                  +:+ String Text.newline ws +:+ String "}" EmptyString ∧
    group 2 c = key.
Proof.
  unfold match_at, BibSort.entry_pattern. rewrite run_Group. intros H.
  next_in H. apply run_Lit in H as (s1 & -> & H).
  next_in H. apply run_Plus in H as (ty & s2 & Hty & Htyw & -> & H).
  next_in H. apply run_Lit in H as (s3 & -> & H).
  next_in H. rewrite run_Group in H.
  apply run_Plus in H as (key & s4 & Hkey & Hkeyc & -> & H).
  next_in H. apply run_Lit in H as (s5 & -> & H).
  next_in H. apply run_StarLazy in H as (body & s6 & _ & -> & H).
  next_in H. apply run_Lit in H as (s7 & -> & H).
  next_in H. apply run_Star in H as (ws & s8 & Hws & -> & H).
  next_in H. apply run_Lit in H as (s9 & -> & H).
  injection H as -> <-.
  exists ty, key, body, ws.
  assert (String "@" (ty +:+ String "{" (key +:+ String "," (body +:+
            String Text.newline (ws +:+ String "}" rest))))
          = (String "@" ty +:+ String "{" key +:+ String "," body
               +:+ String Text.newline ws +:+ String "}" EmptyString) +:+ rest) as Hs.
  { symmetry. rewrite !str_app_assoc. reflexivity. }
  repeat split; try done.
  - unfold group. rewrite lookup_insert_eq. simpl. rewrite Hs. apply consumed_append.
  - unfold group. rewrite lookup_insert_ne by done. rewrite lookup_insert_eq. simpl.
    apply consumed_append.
Qed.

(** Every match of a scan is a match at some position of the input. *)
Lemma scan_elem r s : ∀ skip c,
  c ∈ scan r s skip →
  ∃ pre s' rest, s = pre +:+ s' ∧ match_at r s' = Some (rest, c).
Proof.
  induction s as [|a s IH]; intros skip c Hc.
  - destruct skip as [|n]; simpl in Hc; [|by apply elem_of_nil in Hc].
    destruct (match_at r EmptyString) as [[rest c']|] eqn:E;
      [|by apply elem_of_nil in Hc].
    apply list_elem_of_singleton in Hc as ->.
    by exists EmptyString, EmptyString, rest.
  - assert (∀ n, c ∈ scan r s n →
              ∃ pre s' rest, String a s = pre +:+ s' ∧ match_at r s' = Some (rest, c))
      as Hlater.
    { intros n Hn. destruct (IH n c Hn) as (pre & s' & rest & -> & Hm).
      by exists (String a pre), s', rest. }
    destruct skip as [|n]; simpl in Hc; [|by apply (Hlater n)].
    destruct (match_at r (String a s)) as [[rest c']|] eqn:E; [|by apply (Hlater 0)].
    apply elem_of_cons in Hc as [->|Hc]; [|by apply (Hlater _ Hc)].
    by exists EmptyString, (String a s), rest.
Qed.

(** An argument found for a command is the argument of an occurrence of the
    command in the document. *)
Lemma findall1_citation name content m :
  m ∈ findall1 (BibSort.citation_pattern name) content →
  m ≠ EmptyString ∧ lacks "}" m ∧ command_occurs name m content.
Proof.
  unfold findall1, finditer. intros Hm.
  apply list_elem_of_fmap in Hm as (c & -> & Hc).
  apply scan_elem in Hc as (pre & s' & rest & -> & Hmatch).
  apply citation_match in Hmatch as (arg & Hne & Harg & -> & ->).
  unfold group. rewrite lookup_singleton_eq. simpl.
  split; [done|]. split; [done|]. by exists pre, rest.
Qed.

(** A block found by the parser is a block of the source with the shape of
    an entry. *)
Lemma findall2_entry content full name :
  (full, name) ∈ findall2 BibSort.entry_pattern content →
  ∃ before after ty body ws,
    content = before +:+ full +:+ after ∧
    ty ≠ EmptyString ∧ all_chars Text.isword ty ∧
    name ≠ EmptyString ∧ all_chars BibSort.key_char name ∧
    all_chars Text.isspace ws ∧
    full = String "@" ty +:+ String "{" name +:+ String "," body
             +:+ String Text.newline ws +:+ String "}" EmptyString.
Proof.
  unfold findall2, finditer. intros Hm.
  apply list_elem_of_fmap in Hm as (c & [= -> ->] & Hc).
  apply scan_elem in Hc as (pre & s' & rest & -> & Hmatch).
  apply entry_match_shape in Hmatch
    as (ty & key & body & ws & Hty & Hw & Hkey & Hkc & Hws & -> & -> & ->).
  by exists pre, rest, ty, body, ws.
Qed.

End ReFacts.

(** ** Facts about the bibliography reconciler *)

Module BibSortFacts.

Import Re BibSort Spec Sample TextFacts.

(** *** The citation set *)

Lemma elem_of_foldl_add {A : Type} (g : gset string → A → gset string)
    (P : A → string → Prop) :
  (∀ cs a k, k ∈ g cs a ↔ k ∈ cs ∨ P a k) →
  ∀ l cs k, k ∈ foldl g cs l ↔ k ∈ cs ∨ ∃ a, a ∈ l ∧ P a k.
Proof.
  intros Hg l. induction l as [|a l IH]; intros cs k; simpl.
  - split; [auto|]. intros [?|(a & Ha & _)]; [done|]. by apply elem_of_nil in Ha.
  - rewrite IH, Hg. split.
    + intros [[?|?]|(b & Hb & ?)]; [by left| |].
      * right. exists a. split; [by left|done].
      * right. exists b. split; [by right|done].
    + intros [?|(b & Hb & ?)]; [by left; left|].
      apply elem_of_cons in Hb as [->|Hb]; [by left; right|].
      right. by exists b.
Qed.

Lemma elem_of_add_keys cs m k :
  k ∈ add_keys cs m ↔
  k ∈ cs ∨ ∃ piece, piece ∈ Text.split "," m ∧ k = Text.strip piece.
Proof.
  unfold add_keys.
  apply (elem_of_foldl_add _ (fun piece k => k = Text.strip piece)).
  intros. rewrite elem_of_union, elem_of_singleton. tauto.
Qed.

Lemma elem_of_add_matches content cs pattern k :
  k ∈ add_matches content cs pattern ↔
  k ∈ cs ∨ ∃ m, m ∈ findall1 pattern content ∧
            ∃ piece, piece ∈ Text.split "," m ∧ k = Text.strip piece.
Proof.
  unfold add_matches.
  apply (elem_of_foldl_add _
    (fun m k => ∃ piece, piece ∈ Text.split "," m ∧ k = Text.strip piece)).
  intros. apply elem_of_add_keys.
Qed.

(** The citation set holds the stripped pieces of the arguments of the
    recognized commands, and nothing else. *)
Lemma elem_of_citations_of content k :
  k ∈ citations_of content ↔
  ∃ pattern m piece,
    pattern ∈ citation_patterns ∧ m ∈ findall1 pattern content ∧
    piece ∈ Text.split "," m ∧ k = Text.strip piece.
Proof.
  unfold citations_of.
  rewrite (elem_of_foldl_add _
    (fun pattern k => ∃ m, m ∈ findall1 pattern content ∧
       ∃ piece, piece ∈ Text.split "," m ∧ k = Text.strip piece)).
  - split.
    + intros [H|(p & Hp & m & Hm & piece & Hpiece & ->)]; [set_solver|].
      by exists p, m, piece.
    + intros (p & m & piece & Hp & Hm & Hpiece & ->). right.
      exists p. split; [done|]. exists m. split; [done|]. by exists piece.
  - intros. apply elem_of_add_matches.
Qed.

Lemma no_citation_command_empty content :
  no_citation_command content → citations_of content = ∅.
Proof.
  intros H. apply set_eq. intros k. rewrite elem_of_citations_of.
  split; [|set_solver].
  intros (p & m & piece & Hp & Hm & _).
  unfold no_citation_command in H. rewrite Forall_forall in H.
  pose proof (H p Hp) as E. rewrite E in Hm. by apply elem_of_nil in Hm.
Qed.

(** *** Running the effects *)

Lemma extract_run tex_file w :
  extract_citations_from_tex tex_file w =
  match files w !! tex_file with
  | None => (inl (FileNotFoundError tex_file), w)
  | Some (Undecodable why) => (inl (UnicodeDecodeError why), w)
  | Some (TextFile content) => (inr (citations_of content), w)
  end.
Proof.
  unfold extract_citations_from_tex, mbind, M_bind, read_text.
  by destruct (files w !! tex_file) as [[]|].
Qed.

Lemma parse_run bib_file w :
  parse_bib_file bib_file w =
  match files w !! bib_file with
  | None => (inl (FileNotFoundError bib_file), w)
  | Some (Undecodable why) => (inl (UnicodeDecodeError why), w)
  | Some (TextFile content) => (inr (entries_of content), w)
  end.
Proof.
  unfold parse_bib_file, mbind, M_bind, read_text.
  by destruct (files w !! bib_file) as [[]|].
Qed.

(** *** Filtering and ordering *)

Lemma contains_true d key : contains d key = true ↔ is_Some (d !! key).
Proof. unfold contains. apply bool_decide_eq_true. Qed.

Lemma keep_cited_run bib acc key :
  keep_cited bib acc key =
  inr (match bib !! key with Some v => <[key := v]> acc | None => acc end).
Proof.
  unfold keep_cited, contains, getitem.
  destruct (bib !! key) as [v|] eqn:E.
  - rewrite bool_decide_eq_true_2 by eauto. done.
  - rewrite bool_decide_eq_false_2; [done|]. by intros [? ?].
Qed.

(** The first loop never raises; it copies the records of the cited keys. *)
Lemma keep_cited_loop bib ks : ∀ acc,
  ∃ filtered, fold_res (keep_cited bib) acc ks = inr filtered ∧
    ∀ k, filtered !! k =
         if decide (k ∈ ks)
         then match bib !! k with Some v => Some v | None => acc !! k end
         else acc !! k.
Proof.
  induction ks as [|a ks IH]; intros acc.
  - exists acc. split; [done|]. intros k.
    destruct (decide (k ∈ [])) as [H|_]; [by apply elem_of_nil in H|done].
  - simpl. rewrite keep_cited_run. unfold mbind, res_bind.
    destruct (IH (match bib !! a with Some v => <[a := v]> acc | None => acc end))
      as (filtered & -> & Hf).
    exists filtered. split; [done|]. intros k. rewrite Hf.
    destruct (decide (k = a)) as [->|Hne].
    + rewrite (decide_True (P := a ∈ a :: ks)) by apply list_elem_of_here.
      destruct (bib !! a) as [v|] eqn:E.
      * rewrite lookup_insert_eq. by destruct (decide (a ∈ ks)).
      * by destruct (decide (a ∈ ks)).
    + assert ((match bib !! a with Some v => <[a := v]> acc | None => acc end) !! k
              = acc !! k) as ->.
      { destruct (bib !! a); [by rewrite lookup_insert_ne|done]. }
      destruct (decide (k ∈ ks)) as [Hin|Hnin].
      * by rewrite decide_True by (by apply list_elem_of_further).
      * rewrite decide_False; [done|]. intros [?|?]%elem_of_cons; done.
Qed.

Lemma od_set_fresh d key v :
  key ∉ od_keys d → od_set d key v = d ++ [(key, v)].
Proof.
  induction d as [|[k x] d IH]; simpl; [done|].
  intros Hk. apply not_elem_of_cons in Hk as [Hne Hk].
  rewrite decide_False by done. by rewrite IH.
Qed.

Lemma od_keys_app d1 d2 : od_keys (d1 ++ d2) = od_keys d1 ++ od_keys d2.
Proof. unfold od_keys. apply fmap_app. Qed.

Lemma od_keys_cited bib ks :
  od_keys (cited_entries bib ks) = filter (fun k => is_Some (bib !! k)) ks.
Proof.
  induction ks as [|a ks IH]; [done|].
  unfold cited_entries in *. simpl.
  destruct (bib !! a) as [v|] eqn:E; simpl.
  - rewrite filter_cons_True by (rewrite E; eauto). f_equal. exact IH.
  - rewrite filter_cons_False; [exact IH|]. rewrite E. by intros [? ?].
Qed.

Lemma place_entry_run filtered sorted key :
  place_entry filtered sorted key =
  inr (match filtered !! key with Some v => od_set sorted key v | None => sorted end).
Proof.
  unfold place_entry, contains, getitem.
  destruct (filtered !! key) as [v|] eqn:E.
  - rewrite bool_decide_eq_true_2 by eauto. done.
  - rewrite bool_decide_eq_false_2; [done|]. by intros [? ?].
Qed.

Lemma cited_entries_cons bib a ks :
  cited_entries bib (a :: ks) =
  match bib !! a with
  | Some v => (a, v) :: cited_entries bib ks
  | None => cited_entries bib ks
  end.
Proof. unfold cited_entries. simpl. by destruct (bib !! a). Qed.

(** The second loop never raises either; with distinct keys each record is
    put after those placed before. *)
Lemma place_entry_loop filtered ks : ∀ sorted,
  NoDup ks → (∀ k, k ∈ ks → k ∉ od_keys sorted) →
  fold_res (place_entry filtered) sorted ks = inr (sorted ++ cited_entries filtered ks).
Proof.
  induction ks as [|a ks IH]; intros sorted Hnd Hfresh.
  - simpl. by rewrite app_nil_r.
  - apply NoDup_cons in Hnd as [Ha Hnd].
    rewrite cited_entries_cons. simpl fold_res.
    rewrite place_entry_run. unfold mbind at 1, res_bind.
    destruct (filtered !! a) as [v|] eqn:E.
    + rewrite od_set_fresh by (apply Hfresh; apply list_elem_of_here).
      rewrite IH; [by rewrite <- app_assoc|done|].
      intros k Hk. rewrite od_keys_app. simpl.
      intros [?|Hin]%elem_of_app.
      * by apply (Hfresh k); [apply list_elem_of_further|].
      * apply list_elem_of_singleton in Hin as ->. done.
    + apply IH; [done|]. intros k Hk. apply Hfresh. by apply list_elem_of_further.
Qed.

Lemma cited_entries_ext bib1 bib2 ks :
  (∀ k, k ∈ ks → bib1 !! k = bib2 !! k) →
  cited_entries bib1 ks = cited_entries bib2 ks.
Proof.
  induction ks as [|a ks IH]; intros H; [done|].
  rewrite !cited_entries_cons.
  rewrite (H a) by apply list_elem_of_here.
  rewrite IH; [done|]. intros k Hk. apply H. by apply list_elem_of_further.
Qed.

Lemma elem_of_cited_entries bib ks k v :
  (k, v) ∈ cited_entries bib ks ↔ k ∈ ks ∧ bib !! k = Some v.
Proof.
  unfold cited_entries. rewrite list_elem_of_omap. split.
  - intros (a & Ha & Hv). destruct (bib !! a) as [x|] eqn:E; simpl in Hv; [|done].
    injection Hv as <- <-. done.
  - intros [Hk Hv]. exists k. split; [done|]. by rewrite Hv.
Qed.

(** What the function returns, for keys enumerated without repetition. *)
Lemma filter_and_sort_run bib ks :
  NoDup ks → filter_and_sort_bib_entries bib ks = inr (cited_entries bib ks).
Proof.
  intros Hnd. unfold filter_and_sort_bib_entries.
  destruct (keep_cited_loop bib ks ∅) as (filtered & -> & Hf).
  unfold mbind, res_bind.
  rewrite place_entry_loop; [|done|].
  - simpl. f_equal. apply cited_entries_ext. intros k Hk.
    rewrite Hf, decide_True by done. rewrite lookup_empty. by destruct (bib !! k).
  - intros k _. simpl. apply not_elem_of_nil.
Qed.

Lemma set_iter_elem_of s order k : set_iter s order → k ∈ order ↔ k ∈ s.
Proof. intros [_ <-]. by rewrite elem_of_list_to_set. Qed.

Lemma set_iter_empty order : set_iter ∅ order → order = [].
Proof.
  intros H. apply elem_of_nil_inv. intros k Hk.
  apply (set_iter_elem_of _ _ k H) in Hk. by apply not_elem_of_empty in Hk.
Qed.

(** Any order without repetition that lists the set will do. *)
Lemma set_iter_elements s : set_iter s (elements s).
Proof. split; [apply NoDup_elements|apply list_to_set_elements_L]. Qed.

Lemma set_iter_perm s order order' :
  order ≡ₚ order' → set_iter s order → set_iter s order'.
Proof.
  intros Hp [Hnd <-]. split; [by rewrite <- Hp|].
  apply set_eq. intros k. rewrite !elem_of_list_to_set. by rewrite Hp.
Qed.

Lemma set_iter_ascending s : set_iter s (ascending s).
Proof.
  apply (set_iter_perm _ (elements s)); [|apply set_iter_elements].
  unfold ascending. by rewrite merge_sort_Permutation.
Qed.

(** *** The bibliography mapping *)

Lemma later_block_cons key m ms :
  later_block key (m :: ms) =
  match later_block key ms with
  | Some v => Some v
  | None => if decide (Text.strip m.2 = key) then Some m.1 else None
  end.
Proof.
  unfold later_block. rewrite filter_cons.
  destruct (decide (Text.strip m.2 = key)) as [E|E].
  - rewrite last_cons. by destruct (last _).
  - by destruct (last _).
Qed.

Lemma later_block_none key ms :
  Forall (fun m => Text.strip m.2 ≠ key) ms → later_block key ms = None.
Proof.
  induction 1 as [|m ms Hm _ IH]; [done|].
  rewrite later_block_cons, IH. by rewrite decide_False.
Qed.

Lemma later_block_last key before m after :
  Text.strip m.2 = key →
  Forall (fun m' => Text.strip m'.2 ≠ key) after →
  later_block key (before ++ m :: after) = Some m.1.
Proof.
  intros Hm Hafter. induction before as [|x before IH]; simpl.
  - rewrite later_block_cons, later_block_none by done. by rewrite decide_True.
  - by rewrite later_block_cons, IH.
Qed.

(** The mapping gives every key the text of its last block. *)
Lemma lookup_foldl_add_entry ms : ∀ acc key,
  foldl add_entry acc ms !! key =
  match later_block key ms with Some v => Some v | None => acc !! key end.
Proof.
  induction ms as [|m ms IH]; intros acc key; simpl; [done|].
  rewrite IH, later_block_cons.
  destruct (later_block key ms); [done|].
  unfold add_entry. destruct (decide (Text.strip m.2 = key)) as [<-|Hne].
  - by rewrite lookup_insert_eq.
  - by rewrite lookup_insert_ne.
Qed.

Lemma lookup_entries_of content key :
  entries_of content !! key = later_block key (findall2 entry_pattern content).
Proof.
  unfold entries_of. rewrite lookup_foldl_add_entry, lookup_empty.
  by destruct (later_block _ _).
Qed.

(** *** Writing the output file *)

Lemma alter_present (f : file → file) (m : gmap string file) i x :
  m !! i = Some x → alter f i m = <[i := f x]> m.
Proof.
  intros H. apply map_eq. intros j. rewrite lookup_alter, lookup_insert.
  destruct (decide (i = j)); [by rewrite H|done].
Qed.

Lemma take_app_le (a b : string) n :
  String.length a ≤ n →
  Text.take n (a +:+ b) = a +:+ Text.take (n - String.length a) b.
Proof.
  revert n. induction a as [|x a IH]; intros n H; simpl in *.
  - by rewrite Nat.sub_0_r.
  - destruct n as [|n]; [lia|]. simpl. rewrite IH by lia. done.
Qed.

Lemma take_app_ge (a b : string) n :
  n ≤ String.length a → Text.take n (a +:+ b) = Text.take n a.
Proof.
  revert n. induction a as [|x a IH]; intros n H; simpl in *.
  - assert (n = 0) as -> by lia. by destruct b.
  - destruct n as [|n]; [done|]. simpl. rewrite IH by lia. done.
Qed.

Lemma left_nil sp : left sp EmptyString = sp.
Proof. destruct sp as [n|]; simpl; [|done]. by rewrite Nat.sub_0_r. Qed.

Lemma left_app sp (a b : string) : left (left sp a) b = left sp (a +:+ b).
Proof.
  destruct sp as [n|]; simpl; [|done].
  rewrite ReFacts.length_append. f_equal. lia.
Qed.

Lemma fits_app sp (a b : string) :
  fits sp (a +:+ b) ↔ fits sp a ∧ fits (left sp a) b.
Proof.
  destruct sp as [n|]; simpl; [|tauto].
  rewrite ReFacts.length_append. lia.
Qed.

Lemma write_fits path data w content :
  files w !! path = Some (TextFile content) →
  fits (space w) data →
  write path data w =
  (inr tt, MkWorld (<[path := TextFile (content +:+ data)]> (files w)) (locked w)
             (stdout w) (left (space w) data)).
Proof.
  intros H Hfit. unfold write. rewrite decide_True by done.
  by rewrite (alter_present _ _ _ _ H).
Qed.

Lemma write_full path data w content n :
  files w !! path = Some (TextFile content) →
  space w = Some n → n < String.length data →
  write path data w =
  (inl (OSError no_space),
   MkWorld (<[path := TextFile (content +:+ Text.take n data)]> (files w)) (locked w)
     (stdout w) (Some 0)).
Proof.
  intros H Hsp Hlen. unfold write. rewrite Hsp.
  rewrite decide_False by (simpl; lia).
  by rewrite (alter_present _ _ _ _ H).
Qed.

(** The loop of the serializer when the device takes the whole text. *)
Lemma write_loop path entries : ∀ w content,
  files w !! path = Some (TextFile content) →
  fits (space w) (serialized entries) →
  for_each entries (fun entry => write path (entry +:+ nl2)) w =
  (inr tt, MkWorld (<[path := TextFile (content +:+ serialized entries)]> (files w))
             (locked w) (stdout w) (left (space w) (serialized entries))).
Proof.
  induction entries as [|e rest IH]; intros [fs lk out sp] content H Hfit; simpl in *.
  - rewrite str_app_nil_r, insert_id, left_nil by done. done.
  - rewrite <- str_app_assoc in Hfit. apply fits_app in Hfit as [Hfit1 Hfit2].
    unfold mbind, M_bind.
    rewrite (write_fits _ _ _ content) by done. simpl.
    rewrite (IH _ (content +:+ e +:+ nl2)) by (simpl; done || apply lookup_insert_eq).
    simpl. rewrite insert_insert_eq, left_app. by rewrite !str_app_assoc.
Qed.

(** The loop of the serializer when the device is full before the end: the
    file holds the characters that the device took. *)
Lemma write_loop_full path entries : ∀ w content n,
  files w !! path = Some (TextFile content) →
  space w = Some n → n < String.length (serialized entries) →
  for_each entries (fun entry => write path (entry +:+ nl2)) w =
  (inl (OSError no_space),
   MkWorld (<[path := TextFile (content +:+ Text.take n (serialized entries))]> (files w))
     (locked w) (stdout w) (Some 0)).
Proof.
  induction entries as [|e rest IH]; intros [fs lk out sp] content n H Hsp Hlen;
    simpl in *; [lia|].
  subst sp. rewrite <- str_app_assoc in Hlen |- *.
  unfold mbind, M_bind.
  destruct (decide (String.length (e +:+ nl2) ≤ n)) as [Hle|Hgt].
  - rewrite (write_fits _ _ _ content) by done. simpl.
    rewrite ReFacts.length_append in Hlen.
    rewrite (IH _ (content +:+ e +:+ nl2) (n - String.length (e +:+ nl2)))
      by (simpl; done || apply lookup_insert_eq || lia).
    simpl. rewrite insert_insert_eq, (take_app_le (e +:+ nl2) (serialized rest)) by done.
    by rewrite !str_app_assoc.
  - rewrite (write_full _ _ _ content n) by (simpl; done || lia).
    rewrite (take_app_ge (e +:+ nl2) (serialized rest)) by lia. done.
Qed.

(** What the serializer leaves when the device takes the whole text: the
    file at the path holds the texts, each followed by an empty line, and
    no other file changes. *)
Lemma write_bib_file_run entries path w :
  path ∉ locked w →
  fits (space w) (serialized (od_values entries)) →
  write_bib_file entries path w =
  (inr tt, MkWorld (<[path := TextFile (serialized (od_values entries))]> (files w))
             (locked w) (stdout w) (left (space w) (serialized (od_values entries)))).
Proof.
  intros Hfree Hfit. unfold write_bib_file, mbind, M_bind, open_w.
  rewrite decide_False by done.
  rewrite (write_loop _ _ _ EmptyString) by (simpl; done || apply lookup_insert_eq).
  simpl. by rewrite insert_insert_eq.
Qed.

(** What it leaves when the device is full before the end. *)
Lemma write_bib_file_full entries path w n :
  path ∉ locked w →
  space w = Some n → n < String.length (serialized (od_values entries)) →
  write_bib_file entries path w =
  (inl (OSError no_space),
   MkWorld (<[path := TextFile (Text.take n (serialized (od_values entries)))]> (files w))
     (locked w) (stdout w) (Some 0)).
Proof.
  intros Hfree Hsp Hlen. unfold write_bib_file, mbind, M_bind, open_w.
  rewrite decide_False by done.
  rewrite (write_loop_full _ _ _ EmptyString n) by (simpl; done || apply lookup_insert_eq).
  simpl. by rewrite insert_insert_eq.
Qed.

Lemma write_bib_file_locked entries path w :
  path ∈ locked w →
  write_bib_file entries path w = (inl (PermissionError path), w).
Proof.
  intros Hl. unfold write_bib_file, mbind, M_bind, open_w.
  by rewrite decide_True by done.
Qed.

(** *** The blocks of the output file *)

Lemma lines_serialized_cons e rest :
  lines (serialized (e :: rest)) = lines e ++ EmptyString :: lines (serialized rest).
Proof.
  unfold lines. simpl. unfold nl2.
  change (String Text.newline (String Text.newline EmptyString) +:+ serialized rest)
    with (String Text.newline (EmptyString +:+ String Text.newline (serialized rest))).
  by rewrite !split_app.
Qed.

Lemma runs_block L R :
  L ≠ [] → Forall (fun l => is_blank l = false) L →
  runs (L ++ EmptyString :: R) = L :: runs R.
Proof.
  intros Hne HL. induction HL as [|l L Hl HL IH]; [done|].
  destruct L as [|l2 L].
  - simpl. by rewrite Hl.
  - assert (is_blank l2 = false) as Hl2 by (by inversion HL).
    change ((l :: l2 :: L) ++ EmptyString :: R)
      with (l :: (l2 :: L) ++ EmptyString :: R).
    cbn [runs]. rewrite Hl.
    change ((l2 :: L) ++ EmptyString :: R) with (l2 :: L ++ EmptyString :: R) at 1.
    cbv iota. rewrite Hl2.
    change (l2 :: L ++ EmptyString :: R) with ((l2 :: L) ++ EmptyString :: R).
    by rewrite IH.
Qed.

(** Entries without a blank line come back as the blocks of the file. *)
Lemma blocks_serialized entries :
  Forall no_blank_line entries → blocks (serialized entries) = entries.
Proof.
  unfold blocks. induction 1 as [|e rest He _ IH]; [done|].
  rewrite lines_serialized_cons, runs_block.
  - rewrite fmap_cons, IH. f_equal. apply join_split.
  - apply split_nonempty.
  - exact He.
Qed.

(** *** Documents without a citation command *)

Lemma citation_pattern_head name :
  ∃ r, citation_pattern name = Cat (Lit backslash) r.
Proof. unfold citation_pattern. simpl. eauto. Qed.

Lemma scan_no_head c r s :
  lacks c s → scan (Cat (Lit c) r) s 0 = [].
Proof.
  induction s as [|a s IH]; intros H; simpl.
  - done.
  - destruct H as [Ha Hs]. unfold match_at. simpl.
    destruct (Ascii.eqb c a) eqn:E; [|by apply IH].
    apply Ascii.eqb_eq in E. congruence.
Qed.

(** A document without a backslash has no citation command. *)
Lemma no_backslash_no_citation content :
  lacks backslash content → no_citation_command content.
Proof.
  intros H. unfold no_citation_command. apply Forall_forall. intros p Hp.
  assert (∃ r, p = Cat (Lit backslash) r) as [r ->].
  { unfold citation_patterns in Hp.
    repeat (apply elem_of_cons in Hp as [->|Hp]; [apply citation_pattern_head|]).
    by apply elem_of_nil in Hp. }
  unfold findall1, finditer. by rewrite scan_no_head.
Qed.

(** *** Runs of [main] *)

Lemma main_try_no_tex enumerate w :
  files w !! tex_file = None →
  main_try enumerate w =
  (inl (FileNotFoundError tex_file),
   MkWorld (files w) (locked w)
     (stdout w ++ ["Extracting citations from " +:+ tex_file +:+ "..."]) (space w)).
Proof.
  intros H. destruct w as [fs lk out sp]. simpl in *.
  unfold main_try, mbind, M_bind, print. simpl.
  rewrite extract_run. simpl. by rewrite H.
Qed.

Lemma main_try_bad_tex enumerate w why :
  files w !! tex_file = Some (Undecodable why) →
  main_try enumerate w =
  (inl (UnicodeDecodeError why),
   MkWorld (files w) (locked w)
     (stdout w ++ ["Extracting citations from " +:+ tex_file +:+ "..."]) (space w)).
Proof.
  intros H. destruct w as [fs lk out sp]. simpl in *.
  unfold main_try, mbind, M_bind, print. simpl.
  rewrite extract_run. simpl. by rewrite H.
Qed.

Lemma main_try_no_bib enumerate w doc :
  files w !! tex_file = Some (TextFile doc) →
  files w !! bib_file = None →
  main_try enumerate w =
  (inl (FileNotFoundError bib_file),
   MkWorld (files w) (locked w)
     (stdout w ++
      [ "Extracting citations from " +:+ tex_file +:+ "...";
        "Found " +:+ pretty (size (citations_of doc)) +:+ " unique citations";
        "Parsing bibliography entries from " +:+ bib_file +:+ "..." ]) (space w)).
Proof.
  intros Htex Hbib. destruct w as [fs lk out sp]. simpl in *.
  unfold main_try, mbind, M_bind, print. simpl.
  rewrite extract_run. simpl. rewrite Htex.
  rewrite parse_run. simpl. rewrite Hbib.
  by rewrite <- !app_assoc.
Qed.

(** A run in which both files are read, the output can be opened and the
    device takes the whole text. *)
Lemma main_try_success enumerate w doc bib :
  files w !! tex_file = Some (TextFile doc) →
  files w !! bib_file = Some (TextFile bib) →
  output_file ∉ locked w →
  NoDup (enumerate (citations_of doc)) →
  let out := cited_entries (entries_of bib) (enumerate (citations_of doc)) in
  fits (space w) (serialized (od_values out)) →
  main_try enumerate w =
  (inr tt,
   MkWorld (<[output_file := TextFile (serialized (od_values out))]> (files w))
     (locked w)
     (stdout w ++
      [ "Extracting citations from " +:+ tex_file +:+ "...";
        "Found " +:+ pretty (size (citations_of doc)) +:+ " unique citations";
        "Parsing bibliography entries from " +:+ bib_file +:+ "...";
        "Found " +:+ pretty (size (entries_of bib)) +:+ " entries in bibliography";
        "Filtering and sorting entries...";
        "Kept " +:+ pretty (length out) +:+ " cited entries";
        "Writing processed bibliography to " +:+ output_file +:+ "...";
        "Processing complete!" ])
     (left (space w) (serialized (od_values out)))).
Proof.
  intros Htex Hbib Hfree Hnd out Hfit. destruct w as [fs lk so sp]. simpl in *.
  unfold main_try, mbind, M_bind, print, lift. simpl.
  rewrite extract_run. simpl. rewrite Htex.
  rewrite parse_run. simpl. rewrite Hbib.
  rewrite filter_and_sort_run by done.
  rewrite write_bib_file_run by done. simpl.
  by rewrite <- !app_assoc.
Qed.

(** *** The properties of the specification *)

(** The output of the filter-and-reorder step for an enumerated set. *)
Lemma filter_and_sort_exact (bib_entries : gmap string string)
    (citations : gset string) (order : list string) :
  set_iter citations order →
  ∃ out,
    filter_and_sort_bib_entries bib_entries order = inr out ∧
    (∀ k v, (k, v) ∈ out ↔ k ∈ citations ∧ bib_entries !! k = Some v).
Proof.
  intros Hiter. exists (cited_entries bib_entries order).
  split; [apply filter_and_sort_run; apply Hiter|].
  intros k v. rewrite elem_of_cited_entries.
  by rewrite (set_iter_elem_of citations order k).
Qed.


Lemma citation_patterns_names :
  citation_patterns = citation_pattern <$> command_names.
Proof. done. Qed.

(** C3, as the code has it: the citation set returned by the extractor holds
    exactly the stripped comma-separated pieces of the arguments that the
    eight patterns find in the document, the empty string included when a
    piece is blank.  Every key of the set has no leading and no trailing
    whitespace, and is such a piece of the argument of a recognized command
    that occurs in the document. *)
Theorem extracted_keys_are_trimmed (tex_file : string) (w w' : world)
    (citations : gset string) :
  extract_citations_from_tex tex_file w = (inr citations, w') →
  ∃ content,
    files w !! tex_file = Some (TextFile content) ∧
    (∀ k, k ∈ citations ↔
       ∃ name arg piece,
         name ∈ command_names ∧
         arg ∈ findall1 (citation_pattern name) content ∧
         piece ∈ Text.split "," arg ∧ k = Text.strip piece) ∧
    (∀ k, k ∈ citations →
       trimmed k ∧
       ∃ name arg piece,
         name ∈ command_names ∧ command_occurs name arg content ∧
         piece ∈ Text.split "," arg ∧ k = Text.strip piece).
Proof.
  rewrite extract_run. intros Hrun.
  destruct (files w !! tex_file) as [[content|why]|] eqn:E; try done.
  injection Hrun as <- <-. exists content. split; [done|].
  assert (∀ k, k ∈ citations_of content ↔
            ∃ name arg piece,
              name ∈ command_names ∧
              arg ∈ findall1 (citation_pattern name) content ∧
              piece ∈ Text.split "," arg ∧ k = Text.strip piece) as Hset.
  { intros k. rewrite elem_of_citations_of, citation_patterns_names. split.
    - intros (p & m & piece & Hp & Hm & Hpiece & ->).
      apply list_elem_of_fmap in Hp as (name & -> & Hname).
      by exists name, m, piece.
    - intros (name & m & piece & Hname & Hm & Hpiece & ->).
      exists (citation_pattern name), m, piece.
      split; [by apply list_elem_of_fmap_2|done]. }
  split; [exact Hset|].
  intros k Hk. apply Hset in Hk as (name & m & piece & Hname & Hm & Hpiece & ->).
  split; [apply strip_trimmed|].
  apply ReFacts.findall1_citation in Hm as (_ & _ & Hocc).
  by exists name, m, piece.
Qed.

Lemma extracted_keys_are_trimmed_witness :
  extract_citations_from_tex tex_file (world_of gap_tex ref_bib)
    = (inr (citations_of gap_tex), world_of gap_tex ref_bib) ∧
  ∃ content,
    files (world_of gap_tex ref_bib) !! tex_file = Some (TextFile content) ∧
    (∀ k, k ∈ citations_of gap_tex ↔
       ∃ name arg piece,
         name ∈ command_names ∧
         arg ∈ findall1 (citation_pattern name) content ∧
         piece ∈ Text.split "," arg ∧ k = Text.strip piece) ∧
    (∀ k, k ∈ citations_of gap_tex →
       trimmed k ∧
       ∃ name arg piece,
         name ∈ command_names ∧ command_occurs name arg content ∧
         piece ∈ Text.split "," arg ∧ k = Text.strip piece).
Proof.
  assert (extract_citations_from_tex tex_file (world_of gap_tex ref_bib)
          = (inr (citations_of gap_tex), world_of gap_tex ref_bib)) as Hrun.
  { vm_compute. reflexivity. }
  exact (conj Hrun
           (extracted_keys_are_trimmed tex_file (world_of gap_tex ref_bib)
              (world_of gap_tex ref_bib) (citations_of gap_tex) Hrun)).
Defined.

(** C3 as stated fails: the empty string is a key of the citation set of a
    document with [\cite{a,,b}]. *)
Lemma empty_key_extracted :
  ∃ citations w',
    extract_citations_from_tex tex_file (world_of gap_tex ref_bib)
      = (inr citations, w') ∧
    EmptyString ∈ citations ∧
    ¬ (∀ k, k ∈ citations → k ≠ EmptyString).
Proof.
  exists (citations_of gap_tex), (world_of gap_tex ref_bib).
  assert (EmptyString ∈ citations_of gap_tex) as H by (vm_compute; reflexivity).
  split; [vm_compute; reflexivity|]. split; [exact H|].
  intros Hall. by apply (Hall EmptyString H).
Qed.

(** A document in which no recognized command occurs with an argument has
    no citation command for the extractor. *)
Lemma no_occurrence_no_citation content :
  (∀ name arg, name ∈ command_names → arg ≠ EmptyString → lacks "}" arg →
     ¬ command_occurs name arg content) →
  no_citation_command content.
Proof.
  intros Hnone. unfold no_citation_command. apply Forall_forall. intros p Hp.
  rewrite citation_patterns_names in Hp.
  apply list_elem_of_fmap in Hp as (name & -> & Hname).
  destruct (findall1 (citation_pattern name) content) as [|m l] eqn:E; [done|].
  assert (m ∈ findall1 (citation_pattern name) content) as Hm
    by (rewrite E; apply list_elem_of_here).
  apply ReFacts.findall1_citation in Hm as (Hne & Harg & Hocc).
  by destruct (Hnone name m Hname Hne Harg).
Qed.

(** C8: what the extractor returns is fixed by the text of the document
    alone, and extraction leaves the world as it was; so running it again
    on the same text gives the same citation set (or the same failure). *)
Theorem extraction_repeatable (tex_file : string) (w1 w2 : world) :
  files w1 !! tex_file = files w2 !! tex_file →
  (extract_citations_from_tex tex_file w1).1 = (extract_citations_from_tex tex_file w2).1 ∧
  (extract_citations_from_tex tex_file w1).2 = w1 ∧
  extract_citations_from_tex tex_file (extract_citations_from_tex tex_file w1).2
    = extract_citations_from_tex tex_file w1.
Proof.
  intros Hsame.
  assert ((extract_citations_from_tex tex_file w1).2 = w1) as H.
  { rewrite extract_run. by destruct (files w1 !! tex_file) as [[|]|]. }
  split; [|split; [exact H|by rewrite H]].
  rewrite !extract_run, Hsame. by destruct (files w2 !! tex_file) as [[|]|].
Qed.

Lemma extraction_repeatable_witness :
  (extract_citations_from_tex tex_file (world_of main_tex ref_bib)).1
    = (extract_citations_from_tex tex_file (world_of main_tex twice_bib)).1 ∧
  (extract_citations_from_tex tex_file (world_of main_tex ref_bib)).2
    = world_of main_tex ref_bib ∧
  extract_citations_from_tex tex_file
      (extract_citations_from_tex tex_file (world_of main_tex ref_bib)).2
    = extract_citations_from_tex tex_file (world_of main_tex ref_bib).
Proof.
  assert (files (world_of main_tex ref_bib) !! tex_file
          = files (world_of main_tex twice_bib) !! tex_file) as Hsame.
  { vm_compute. reflexivity. }
  exact (extraction_repeatable tex_file (world_of main_tex ref_bib)
           (world_of main_tex twice_bib) Hsame).
Defined.

(** C5: for every citation set, enumerated in any order, and every
    bibliography mapping, the filter-and-reorder step returns without
    raising; its output holds exactly the records whose key is cited and
    present in the mapping, each once, in the order of enumeration. *)
Theorem missing_record_is_dropped (bib_entries : gmap string string)
    (citations : gset string) (order : list string) :
  set_iter citations order →
  ∃ out,
    filter_and_sort_bib_entries bib_entries order = inr out ∧
    (∀ k v, (k, v) ∈ out ↔ k ∈ citations ∧ bib_entries !! k = Some v) ∧
    od_keys out = filter (fun k => is_Some (bib_entries !! k)) order ∧
    NoDup (od_keys out).
Proof.
  intros Hiter. exists (cited_entries bib_entries order).
  destruct Hiter as [Hnd Hset].
  split; [by apply filter_and_sort_run|].
  split; [|split].
  - intros k v. rewrite elem_of_cited_entries.
    by rewrite (set_iter_elem_of citations order k).
  - apply od_keys_cited.
  - rewrite od_keys_cited. by apply NoDup_filter.
Qed.

Lemma missing_record_is_dropped_witness :
  ∃ out,
    filter_and_sort_bib_entries (entries_of ref_bib) ["Z"; "B"; "A"] = inr out ∧
    (∀ k v, (k, v) ∈ out ↔ k ∈ ({["A"; "B"; "Z"]} : gset string) ∧
                             entries_of ref_bib !! k = Some v) ∧
    od_keys out = filter (fun k => is_Some (entries_of ref_bib !! k)) ["Z"; "B"; "A"] ∧
    NoDup (od_keys out).
Proof.
  apply (missing_record_is_dropped (entries_of ref_bib) {["A"; "B"; "Z"]} ["Z"; "B"; "A"]).
  apply (bool_decide_unpack _). vm_compute. exact I.
Defined.

Lemma serialized_elem v l :
  v ∈ l → ∃ before after, serialized l = before +:+ v +:+ nl2 +:+ after.
Proof.
  induction l as [|x l IH]; intros H; [by apply elem_of_nil in H|].
  apply elem_of_cons in H as [->|H].
  - by exists EmptyString, (serialized l).
  - destruct (IH H) as (before & after & Heq).
    exists (x +:+ nl2 +:+ before), after. simpl. rewrite Heq.
    by rewrite !str_app_assoc.
Qed.

(** C4, as the code has it: when a trimmed key is the key of two or more of
    the blocks that the pattern of the parser finds in the source, the
    mapping gives it the text of the last of them; for every citation set
    that holds the key, that text is the one in the output list and the one
    written, followed by an empty line, to the output file. *)
Theorem duplicate_key_later_wins (content key : string)
    (earlier later : string * string)
    (before between after : list (string * string)) :
  findall2 entry_pattern content = before ++ earlier :: between ++ later :: after →
  Text.strip earlier.2 = key →
  Text.strip later.2 = key →
  Forall (fun m => Text.strip m.2 ≠ key) after →
  entries_of content !! key = Some later.1 ∧
  ∀ citations order, set_iter citations order → key ∈ citations →
    ∃ out,
      filter_and_sort_bib_entries (entries_of content) order = inr out ∧
      (key, later.1) ∈ out ∧ (∀ v, (key, v) ∈ out → v = later.1) ∧
      ∀ path w,
        path ∉ locked w → fits (space w) (serialized (od_values out)) →
        ∃ w' head tail,
          write_bib_file out path w = (inr tt, w') ∧
          files w' !! path = Some (TextFile (head +:+ later.1 +:+ nl2 +:+ tail)) ∧
          head +:+ later.1 +:+ nl2 +:+ tail = serialized (od_values out).
Proof.
  intros Hmatches _ Hlater Hafter.
  assert (entries_of content !! key = Some later.1) as Hlookup.
  { rewrite lookup_entries_of, Hmatches.
    change (before ++ earlier :: between ++ later :: after)
      with (before ++ (earlier :: between) ++ later :: after).
    rewrite app_assoc. by apply later_block_last. }
  split; [exact Hlookup|].
  intros citations order Hiter Hkey.
  destruct (filter_and_sort_exact (entries_of content) citations order Hiter)
    as (out & Hrun & Hout).
  assert ((key, later.1) ∈ out) as Hin by (by apply Hout).
  exists out. split; [exact Hrun|]. split; [exact Hin|]. split.
  - intros v Hv. apply Hout in Hv as [_ Hv]. congruence.
  - intros path w Hfree Hfit.
    assert (later.1 ∈ od_values out) as Hval.
    { unfold od_values. apply list_elem_of_fmap. by exists (key, later.1). }
    destruct (serialized_elem _ _ Hval) as (head & tail & Heq).
    eexists _, head, tail. split; [by apply write_bib_file_run|].
    simpl. split; [|done]. rewrite lookup_insert_eq. by rewrite Heq.
Qed.

Lemma duplicate_key_later_wins_witness :
  entries_of twice_bib !! "A" = Some entry_A' ∧
  ∀ citations order, set_iter citations order → "A" ∈ citations →
    ∃ out,
      filter_and_sort_bib_entries (entries_of twice_bib) order = inr out ∧
      ("A", entry_A') ∈ out ∧ (∀ v, ("A", v) ∈ out → v = entry_A') ∧
      ∀ path w,
        path ∉ locked w → fits (space w) (serialized (od_values out)) →
        ∃ w' head tail,
          write_bib_file out path w = (inr tt, w') ∧
          files w' !! path = Some (TextFile (head +:+ entry_A' +:+ nl2 +:+ tail)) ∧
          head +:+ entry_A' +:+ nl2 +:+ tail = serialized (od_values out).
Proof.
  assert (findall2 entry_pattern twice_bib
          = [] ++ (entry_A, "A") :: [(entry_B, "B")] ++ (entry_A', " A ") :: []) as Hm.
  { vm_compute. reflexivity. }
  assert (Text.strip (entry_A, "A").2 = "A") as H1 by (vm_compute; reflexivity).
  assert (Text.strip (entry_A', " A ").2 = "A") as H2 by (vm_compute; reflexivity).
  exact (duplicate_key_later_wins twice_bib "A" (entry_A, "A") (entry_A', " A ")
           [] [(entry_B, "B")] [] Hm H1 H2 (Forall_nil_2 _)).
Defined.

(** C4 as stated fails: [swallow_bib] has two well-formed blocks with the
    key [A]; the one-line entry between them has a comma and no closing
    brace on a line of its own, so its match runs on to the end of the
    second block, which is then not found: the mapping keeps the text of
    the first block. *)
Lemma swallowed_later_block_loses :
  (∃ rest, match_at entry_pattern (entry_A +:+ rest)
             = Some (rest, <[1 := entry_A]> (<[2 := "A"]> ∅))) ∧
  (∃ rest, match_at entry_pattern (entry_A' +:+ rest)
             = Some (rest, <[1 := entry_A']> (<[2 := " A "]> ∅))) ∧
  Text.strip "A" = "A" ∧ Text.strip " A " = "A" ∧
  swallow_bib = entry_A +:+ nl2 +:+ one_line +:+ nl2 +:+ entry_A' ∧
  entries_of swallow_bib !! "A" = Some entry_A ∧
  entries_of swallow_bib !! "A" ≠ Some entry_A'.
Proof.
  split; [exists EmptyString; vm_compute; reflexivity|].
  split; [exists EmptyString; vm_compute; reflexivity|].
  split; [vm_compute; reflexivity|]. split; [vm_compute; reflexivity|].
  split; [vm_compute; reflexivity|].
  split; [vm_compute; reflexivity|]. vm_compute. discriminate.
Qed.

(** C1 on the code: [C] is cited first, then [A] and [B] together, and [D]
    is never cited.  [D] is left out, but the records come in the order in
    which the set of keys is enumerated, which Python does not tie to the
    order of citation: with the keys enumerated as [A], [B], [C], the
    output list is [A], [B], [C] and not [C], [A], [B]. *)
Theorem output_follows_enumeration_not_citation :
  citations_of main_tex = {["A"; "B"; "C"]} ∧
  set_iter (citations_of main_tex) ["A"; "B"; "C"] ∧
  filter_and_sort_bib_entries (entries_of ref_bib) ["A"; "B"; "C"]
    = inr [("A", entry_A); ("B", entry_B); ("C", entry_C)] ∧
  od_keys [("A", entry_A); ("B", entry_B); ("C", entry_C)] ≠ ["C"; "A"; "B"] ∧
  ∃ w', main ascending (world_of main_tex ref_bib) = (0%Z, w') ∧
        files w' !! output_file
          = Some (TextFile (serialized [entry_A; entry_B; entry_C])).
Proof.
  split; [by vm_compute|].
  split; [apply (bool_decide_unpack _); vm_compute; exact I|].
  split; [vm_compute; reflexivity|].
  split; [discriminate|].
  eexists. split; [vm_compute; reflexivity|].
  vm_compute. reflexivity.
Qed.

Lemma filter_all {A : Type} (P : A → Prop) `{!∀ x, Decision (P x)} (l : list A) :
  (∀ x, x ∈ l → P x) → filter P l = l.
Proof.
  induction l as [|x l IH]; intros Hall; [done|].
  rewrite filter_cons_True by (apply Hall; apply list_elem_of_here).
  rewrite IH; [done|]. intros y Hy. apply Hall. by apply list_elem_of_further.
Qed.

(** Whatever the order of enumeration, the output for the sample holds the
    records of [A], [B] and [C] and not the one of [D]. *)
Lemma sample_output_members order :
  set_iter (citations_of main_tex) order →
  ∃ out,
    filter_and_sort_bib_entries (entries_of ref_bib) order = inr out ∧
    od_keys out ≡ₚ ["C"; "A"; "B"] ∧ "D" ∉ od_keys out.
Proof.
  intros Hiter. exists (cited_entries (entries_of ref_bib) order).
  split; [apply filter_and_sort_run; apply Hiter|].
  assert (citations_of main_tex = list_to_set ["C"; "A"; "B"]) as Hc by (by vm_compute).
  assert (∀ k, k ∈ order ↔ k ∈ ["C"; "A"; "B"]) as Hmem.
  { intros k. rewrite (set_iter_elem_of _ _ k Hiter), Hc. apply elem_of_list_to_set. }
  assert (order ≡ₚ ["C"; "A"; "B"]) as Hperm.
  { apply NoDup_Permutation; [apply Hiter| |exact Hmem].
    apply (bool_decide_unpack _). vm_compute. exact I. }
  rewrite od_keys_cited.
  assert (filter (fun k => is_Some (entries_of ref_bib !! k)) order = order) as ->.
  { apply filter_all. intros k Hk. apply Hmem in Hk.
    repeat (apply elem_of_cons in Hk as [->|Hk];
            [apply (bool_decide_unpack _); vm_compute; exact I|]).
    by apply elem_of_nil in Hk. }
  split; [exact Hperm|].
  rewrite Hmem. apply (bool_decide_unpack _). vm_compute. exact I.
Qed.

(** C2, as the code has it: for every ordered list of entries and every
    destination path that can be opened for writing, on a device that takes
    the whole text, the serializer replaces what the path held by the raw
    texts in list order, each followed by one empty line; when no entry has
    a blank line of its own, the file has exactly as many
    blank-line-separated blocks as there are entries, each block identical
    to the raw text of its entry. *)
Theorem serializer_writes_blocks (entries : odict) (path : string) (w : world) :
  path ∉ locked w →
  fits (space w) (serialized (od_values entries)) →
  ∃ w' content,
    write_bib_file entries path w = (inr tt, w') ∧
    files w' = <[path := TextFile content]> (files w) ∧
    content = serialized (od_values entries) ∧
    (Forall no_blank_line (od_values entries) →
     blocks content = od_values entries ∧
     length (blocks content) = length entries).
Proof.
  intros Hfree Hfit.
  eexists _, (serialized (od_values entries)).
  split; [by apply write_bib_file_run|].
  split; [done|]. split; [done|].
  intros Hplain. rewrite blocks_serialized by done.
  split; [done|]. unfold od_values. by rewrite length_fmap.
Qed.

Lemma serializer_writes_blocks_witness :
  ∃ w' content,
    write_bib_file [("C", entry_C); ("G", entry_gap)] output_file
      (World {[output_file := TextFile "old"]} ∅ []) = (inr tt, w') ∧
    files w' = <[output_file := TextFile content]>
                 (files (World {[output_file := TextFile "old"]} ∅ [])) ∧
    content = serialized (od_values [("C", entry_C); ("G", entry_gap)]) ∧
    (Forall no_blank_line (od_values [("C", entry_C); ("G", entry_gap)]) →
     blocks content = od_values [("C", entry_C); ("G", entry_gap)] ∧
     length (blocks content) = length [("C", entry_C); ("G", entry_gap)]).
Proof.
  assert (output_file ∉ locked (World {[output_file := TextFile "old"]} ∅ [])) as Hfree.
  { apply (bool_decide_unpack _). vm_compute. exact I. }
  assert (fits (space (World {[output_file := TextFile "old"]} ∅ []))
            (serialized (od_values [("C", entry_C); ("G", entry_gap)]))) as Hfit.
  { exact I. }
  exact (serializer_writes_blocks [("C", entry_C); ("G", entry_gap)] output_file
           (World {[output_file := TextFile "old"]} ∅ []) Hfree Hfit).
Defined.

(** C2 as stated fails: an entry with an empty line between two fields is
    written as it is, and the file then has two blocks for one entry. *)
Lemma blank_line_inside_entry_splits_block :
  findall2 entry_pattern entry_gap = [(entry_gap, "G")] ∧
  ∃ w' content,
    write_bib_file [("G", entry_gap)] output_file empty_world = (inr tt, w') ∧
    files w' !! output_file = Some (TextFile content) ∧
    length (blocks content) = 2 ∧
    blocks content ≠ [entry_gap].
Proof.
  split; [vm_compute; reflexivity|].
  eexists _, (serialized [entry_gap]).
  split; [vm_compute; reflexivity|].
  split; [vm_compute; reflexivity|].
  split; [vm_compute; reflexivity|].
  vm_compute. discriminate.
Qed.

(** C6: when the document or the bibliography source does not exist, [main]
    ends with exit status 1, its last printed line is a diagnostic that
    starts with [Error: ], and no file is created or changed. *)
Theorem missing_input_stops_before_writing
    (enumerate : gset string → list string) (w : world) :
  files w !! tex_file = None ∨ files w !! bib_file = None →
  ∃ w' diagnostic,
    main enumerate w = (1%Z, w') ∧
    files w' = files w ∧
    last (stdout w') = Some diagnostic ∧
    Text.startswith "Error: " diagnostic = true.
Proof.
  intros Hmissing. unfold main.
  destruct (files w !! tex_file) as [[doc|why]|] eqn:Htex.
  - destruct Hmissing as [?|Hbib]; [done|].
    rewrite (main_try_no_bib _ _ doc) by done.
    eexists _, _. split; [reflexivity|]. simpl.
    split; [done|]. split; [apply last_snoc|done].
  - rewrite (main_try_bad_tex _ _ why) by done.
    eexists _, _. split; [reflexivity|]. simpl.
    split; [done|]. split; [apply last_snoc|done].
  - rewrite main_try_no_tex by done.
    eexists _, _. split; [reflexivity|]. simpl.
    split; [done|]. split; [apply last_snoc|done].
Qed.

Lemma missing_input_stops_before_writing_witness :
  ∃ w' diagnostic,
    main ascending (World {[tex_file := TextFile main_tex]} ∅ []) = (1%Z, w') ∧
    files w' = {[tex_file := TextFile main_tex]} ∧
    last (stdout w') = Some diagnostic ∧
    Text.startswith "Error: " diagnostic = true.
Proof.
  assert (files (World {[tex_file := TextFile main_tex]} ∅ []) !! tex_file = None
          ∨ files (World {[tex_file := TextFile main_tex]} ∅ []) !! bib_file = None)
    as Hmissing.
  { right. vm_compute. reflexivity. }
  exact (missing_input_stops_before_writing ascending
           (World {[tex_file := TextFile main_tex]} ∅ []) Hmissing).
Defined.

(** The diagnostic for a missing document. *)
Lemma missing_tex_diagnostic enumerate w :
  files w !! tex_file = None →
  last (stdout (main enumerate w).2) =
  Some "Error: File not found - [Errno 2] No such file or directory: 'main.tex'".
Proof.
  intros H. unfold main. rewrite main_try_no_tex by done. simpl. apply last_snoc.
Qed.

(** C7: with a document in which no citation command is recognized, and
    whatever the bibliography source holds, [main] ends with exit status 0
    and the output file is empty. *)
Theorem no_citation_empty_output (enumerate : gset string → list string)
    (w : world) (doc bib : string) :
  (∀ s, set_iter s (enumerate s)) →
  files w !! tex_file = Some (TextFile doc) →
  no_citation_command doc →
  files w !! bib_file = Some (TextFile bib) →
  output_file ∉ locked w →
  ∃ w',
    main enumerate w = (0%Z, w') ∧
    files w' = <[output_file := TextFile EmptyString]> (files w).
Proof.
  intros Henum Htex Hnone Hbib Hfree. unfold main.
  pose proof (no_citation_command_empty doc Hnone) as Hempty.
  assert (enumerate (citations_of doc) = []) as Horder.
  { apply set_iter_empty. rewrite <- Hempty at 1. apply Henum. }
  rewrite (main_try_success enumerate w doc bib); [|done|done|done|apply Henum|].
  - eexists. split; [reflexivity|]. simpl. by rewrite Horder.
  - rewrite Horder. simpl. destruct (space w); simpl; [lia|done].
Qed.

Lemma no_citation_empty_output_witness :
  ∃ w',
    main ascending (world_of plain_tex ref_bib) = (0%Z, w') ∧
    files w' = <[output_file := TextFile EmptyString]> (files (world_of plain_tex ref_bib)).
Proof.
  apply (no_citation_empty_output ascending (world_of plain_tex ref_bib) plain_tex ref_bib).
  - apply set_iter_ascending.
  - vm_compute. reflexivity.
  - apply no_backslash_no_citation. vm_compute. repeat split; discriminate.
  - vm_compute. reflexivity.
  - apply (bool_decide_unpack _). vm_compute. exact I.
Defined.

End BibSortFacts.

(** ** Facts about the truncation script *)

Module SplitPdfFacts.

Import SplitPdf.

Section Pdf.

Context {page : Type}.

Implicit Types (w : world page) (pages writer : list page).

Lemma add_pages_run pages n : ∀ i writer w,
  i + n ≤ length pages →
  add_pages pages (seq i n) writer w = (inr (writer ++ take n (drop i pages)), w).
Proof.
  induction n as [|n IH]; intros i writer w Hlen; simpl.
  - by rewrite app_nil_r.
  - destruct (lookup_lt_is_Some_2 pages i) as [p Hp]; [lia|].
    unfold mbind, M_bind, page_at. rewrite Hp. simpl.
    rewrite IH by lia.
    rewrite (drop_S _ _ _ Hp). simpl. by rewrite <- app_assoc.
Qed.

(** The loop copies the first [n] pages, in order. *)
Lemma add_first_pages pages n w :
  n ≤ length pages →
  add_pages pages (seq 0 n) [] w = (inr (take n pages), w).
Proof. intros H. by rewrite add_pages_run by (simpl; lia). Qed.

Lemma input_ne_backup pdf_name : input_file pdf_name ≠ backup_file pdf_name.
Proof.
  unfold input_file, backup_file. intros H.
  apply (inj (String.app (base_name pdf_name))) in H. discriminate.
Qed.

Lemma process_pdf_run pdf_name w pages :
  files w !! input_file pdf_name = Some (PdfFile pages) →
  process_pdf pdf_name w =
  (inr tt,
   World (<[input_file pdf_name := PdfFile (take (length pages `min` 5) pages)]>
            (<[backup_file pdf_name := PdfFile pages]> (files w)))
     (has_pypdf2 w)
     (stdout w ++
      [ "Copied " +:+ input_file pdf_name +:+ " to " +:+ backup_file pdf_name;
        "Success! Kept " +:+ pretty (length pages `min` 5) +:+ " pages in "
          +:+ input_file pdf_name ])).
Proof.
  intros Hin. destruct w as [fs ok out]. simpl in *.
  unfold process_pdf, mbind, M_bind, exists_, copy2, print, reader_pages, write_pdf.
  simpl. rewrite bool_decide_eq_true_2 by eauto. simpl.
  rewrite Hin. simpl. rewrite lookup_insert_eq.
  rewrite add_first_pages by lia. simpl.
  by rewrite <- app_assoc.
Qed.



End Pdf.



(** C10: when the argument ends with [.pdf], the base name is the argument
    without the characters of any occurrence of [.pdf], not only the last
    one; an argument that does not end with [.pdf] is the base name as it
    is.  So [a.pdf.pdf] gives the base name [a]. *)
Theorem base_name_removes_every_pdf (pdf_name : string) :
  base_name pdf_name =
    (if Text.endswith ".pdf" pdf_name
     then Spec.remove_occurrences ".pdf" pdf_name
     else pdf_name) ∧
  (Text.endswith ".pdf" pdf_name = true ↔ ∃ stem, pdf_name = stem +:+ ".pdf") ∧
  base_name "a.pdf.pdf" = "a" ∧
  input_file "a.pdf.pdf" = "a.pdf" ∧
  backup_file "a.pdf.pdf" = "a_with_ref.pdf".
Proof.
  split; [|split; [apply TextFacts.endswith_spec|by vm_compute]].
  unfold base_name. destruct (Text.endswith ".pdf" pdf_name); [|done].
  apply TextFacts.replace_pdf.
Qed.

End SplitPdfFacts.

(** ** More about the bibliography reconciler: the runs of [main] *)

Module BibSortRuns.

Import Re BibSort Spec Sample TextFacts BibSortFacts.

(** The second loop returns for every list of keys, repeated or not. *)
Lemma place_entry_returns filtered ks : ∀ sorted,
  ∃ out, fold_res (place_entry filtered) sorted ks = inr out.
Proof.
  induction ks as [|a ks IH]; intros sorted; simpl; [by exists sorted|].
  rewrite place_entry_run. unfold mbind, res_bind. apply IH.
Qed.

Lemma filter_and_sort_returns bib ks :
  ∃ out, filter_and_sort_bib_entries bib ks = inr out.
Proof.
  unfold filter_and_sort_bib_entries.
  destruct (keep_cited_loop bib ks ∅) as (filtered & -> & _).
  unfold mbind, res_bind. apply place_entry_returns.
Qed.

Lemma main_try_bad_bib enumerate w doc why :
  files w !! tex_file = Some (TextFile doc) →
  files w !! bib_file = Some (Undecodable why) →
  main_try enumerate w =
  (inl (UnicodeDecodeError why),
   MkWorld (files w) (locked w)
     (stdout w ++
      [ "Extracting citations from " +:+ tex_file +:+ "...";
        "Found " +:+ pretty (size (citations_of doc)) +:+ " unique citations";
        "Parsing bibliography entries from " +:+ bib_file +:+ "..." ]) (space w)).
Proof.
  intros Htex Hbib. destruct w as [fs lk out sp]. simpl in *.
  unfold main_try, mbind, M_bind, print. simpl.
  rewrite extract_run. simpl. rewrite Htex.
  rewrite parse_run. simpl. rewrite Hbib.
  by rewrite <- !app_assoc.
Qed.

Lemma main_try_locked enumerate w doc bib :
  files w !! tex_file = Some (TextFile doc) →
  files w !! bib_file = Some (TextFile bib) →
  output_file ∈ locked w →
  ∃ out,
    filter_and_sort_bib_entries (entries_of bib) (enumerate (citations_of doc)) = inr out ∧
    main_try enumerate w =
    (inl (PermissionError output_file),
     MkWorld (files w) (locked w) (stdout w ++ progress doc bib (length out)) (space w)).
Proof.
  intros Htex Hbib Hlocked.
  destruct (filter_and_sort_returns (entries_of bib) (enumerate (citations_of doc)))
    as [out Hout].
  exists out. split; [done|].
  destruct w as [fs lk so sp]. simpl in *.
  unfold main_try, mbind, M_bind, print, lift. simpl.
  rewrite extract_run. simpl. rewrite Htex.
  rewrite parse_run. simpl. rewrite Hbib, Hout.
  rewrite write_bib_file_locked by done. simpl. unfold progress.
  by rewrite <- !app_assoc.
Qed.

Lemma main_try_written enumerate w doc bib out :
  files w !! tex_file = Some (TextFile doc) →
  files w !! bib_file = Some (TextFile bib) →
  output_file ∉ locked w →
  filter_and_sort_bib_entries (entries_of bib) (enumerate (citations_of doc)) = inr out →
  fits (space w) (serialized (od_values out)) →
  main_try enumerate w =
  (inr tt,
   MkWorld (<[output_file := TextFile (serialized (od_values out))]> (files w))
     (locked w)
     (stdout w ++ progress doc bib (length out) ++ ["Processing complete!"])
     (left (space w) (serialized (od_values out)))).
Proof.
  intros Htex Hbib Hfree Hout Hfit.
  destruct w as [fs lk so sp]. simpl in *.
  unfold main_try, mbind, M_bind, print, lift. simpl.
  rewrite extract_run. simpl. rewrite Htex.
  rewrite parse_run. simpl. rewrite Hbib, Hout.
  rewrite write_bib_file_run by done. simpl. unfold progress.
  by rewrite <- !app_assoc.
Qed.

Lemma main_try_full enumerate w doc bib out n :
  files w !! tex_file = Some (TextFile doc) →
  files w !! bib_file = Some (TextFile bib) →
  output_file ∉ locked w →
  filter_and_sort_bib_entries (entries_of bib) (enumerate (citations_of doc)) = inr out →
  space w = Some n → n < String.length (serialized (od_values out)) →
  main_try enumerate w =
  (inl (OSError no_space),
   MkWorld (<[output_file := TextFile (Text.take n (serialized (od_values out)))]> (files w))
     (locked w) (stdout w ++ progress doc bib (length out)) (Some 0)).
Proof.
  intros Htex Hbib Hfree Hout Hsp Hlen.
  destruct w as [fs lk so sp]. simpl in *.
  unfold main_try, mbind, M_bind, print, lift. simpl.
  rewrite extract_run. simpl. rewrite Htex.
  rewrite parse_run. simpl. rewrite Hbib, Hout.
  rewrite (write_bib_file_full _ _ _ n) by done. simpl. unfold progress.
  by rewrite <- !app_assoc.
Qed.

(** The three ways a run of [main] ends: it fails before the output is
    opened, with the files as they were; it fails because the device is
    full, with the part of the output that the device took; or it succeeds.
    A failure gives exit status 1 and a last line that starts with
    [Error: ]. *)
Lemma main_cases enumerate w :
  (¬ readable w ∧
   ∃ lines diagnostic,
     Text.startswith "Error: " diagnostic = true ∧
     main enumerate w =
     (1%Z, MkWorld (files w) (locked w) (stdout w ++ lines ++ [diagnostic]) (space w))) ∨
  (readable w ∧
   ∃ doc bib out,
     files w !! tex_file = Some (TextFile doc) ∧
     files w !! bib_file = Some (TextFile bib) ∧
     filter_and_sort_bib_entries (entries_of bib) (enumerate (citations_of doc)) = inr out ∧
     ((∃ n, space w = Some n ∧ n < String.length (serialized (od_values out)) ∧
        main enumerate w =
        (1%Z, MkWorld (<[output_file := TextFile (Text.take n (serialized (od_values out)))]>
                         (files w))
                (locked w)
                (stdout w ++ progress doc bib (length out) ++ ["Error: " +:+ no_space])
                (Some 0))) ∨
      (fits (space w) (serialized (od_values out)) ∧
       main enumerate w =
       (0%Z, MkWorld (<[output_file := TextFile (serialized (od_values out))]> (files w))
               (locked w)
               (stdout w ++ progress doc bib (length out) ++ ["Processing complete!"])
               (left (space w) (serialized (od_values out))))))).
Proof.
  unfold main.
  destruct (files w !! tex_file) as [[doc|why]|] eqn:Htex.
  - destruct (files w !! bib_file) as [[bib|why]|] eqn:Hbib.
    + destruct (decide (output_file ∈ locked w)) as [Hl|Hl].
      * left. split; [intros (d & b & _ & _ & ?); done|].
        destruct (main_try_locked enumerate w doc bib Htex Hbib Hl) as (out & _ & ->).
        eexists (progress doc bib (length out)), _. split; [|simpl; by rewrite <- app_assoc].
        done.
      * right. split; [by exists doc, bib|].
        destruct (filter_and_sort_returns (entries_of bib) (enumerate (citations_of doc)))
          as [out Hout].
        exists doc, bib, out. split; [done|]. split; [done|]. split; [done|].
        destruct (decide (fits (space w) (serialized (od_values out)))) as [Hfit|Hfull].
        -- right. split; [done|].
           by rewrite (main_try_written enumerate w doc bib out).
        -- left. destruct (space w) as [n|] eqn:Hsp; [|by destruct Hfull].
           simpl in Hfull. exists n. split; [done|]. split; [lia|].
           rewrite (main_try_full enumerate w doc bib out n) by (done || lia).
           simpl. by rewrite <- app_assoc.
    + left. split; [intros (d & b & _ & ? & _); congruence|].
      rewrite (main_try_bad_bib _ _ doc why) by done.
      eexists _, _. split; [|simpl; by rewrite <- app_assoc]. done.
    + left. split; [intros (d & b & _ & ? & _); congruence|].
      rewrite (main_try_no_bib _ _ doc) by done.
      eexists _, _. split; [|simpl; by rewrite <- app_assoc]. done.
  - left. split; [intros (d & b & ? & _); congruence|].
    rewrite (main_try_bad_tex _ _ why) by done.
    eexists _, _. split; [|simpl; by rewrite <- app_assoc]. done.
  - left. split; [intros (d & b & ? & _); congruence|].
    rewrite main_try_no_tex by done.
    eexists _, _. split; [|simpl; by rewrite <- app_assoc]. done.
Qed.




(** X3: in no run, failed or not, does [main] touch a file other than
    [ref_output.bib]; it only adds lines to what was printed. *)
Theorem main_touches_only_output (enumerate : gset string → list string)
    (w : world) :
  delete output_file (files (main enumerate w).2) = delete output_file (files w) ∧
  locked (main enumerate w).2 = locked w ∧
  stdout w `prefix_of` stdout (main enumerate w).2.
Proof.
  destruct (main_cases enumerate w)
    as [[Hno (ls & d & Hd & Hrun)]
       |[Hyes (doc & bib & out & Htex & Hbib & Hout &
               [(n & Hsp & Hlen & Hrun)|[Hfit Hrun]])]];
    rewrite Hrun; simpl.
  - split; [done|]. split; [done|]. by eexists.
  - split; [by rewrite delete_insert_eq|]. split; [done|]. by eexists.
  - split; [by rewrite delete_insert_eq|]. split; [done|]. by eexists.
Qed.

(** X4: when both inputs hold text, the output can be opened, the device
    takes all that is written and the set of citation keys is enumerated
    without repetition, [main] writes to [ref_output.bib] the records of the
    cited keys that have one, in the order of enumeration, each followed by
    an empty line; the counts it prints are those of the distinct keys, of
    the entries of the mapping and of the records kept. *)
Theorem main_writes_cited_records (enumerate : gset string → list string)
    (w : world) (doc bib : string) :
  set_iter (citations_of doc) (enumerate (citations_of doc)) →
  files w !! tex_file = Some (TextFile doc) →
  files w !! bib_file = Some (TextFile bib) →
  output_file ∉ locked w →
  let out := cited_entries (entries_of bib) (enumerate (citations_of doc)) in
  fits (space w) (serialized (od_values out)) →
  main enumerate w =
    (0%Z, MkWorld (<[output_file := TextFile (serialized (od_values out))]> (files w))
            (locked w)
            (stdout w ++ progress doc bib (length out) ++ ["Processing complete!"])
            (left (space w) (serialized (od_values out)))) ∧
  (∀ k v, (k, v) ∈ out ↔ k ∈ citations_of doc ∧ entries_of bib !! k = Some v) ∧
  length out ≤ size (citations_of doc) ∧ length out ≤ size (entries_of bib).
Proof.
  intros Hiter Htex Hbib Hfree out Hfit.
  split.
  { unfold main.
    rewrite (main_try_written enumerate w doc bib out); try done.
    apply filter_and_sort_run, Hiter. }
  split.
  { intros k v. unfold out. rewrite elem_of_cited_entries.
    by rewrite (set_iter_elem_of _ _ k Hiter). }
  assert (NoDup (od_keys out)) as Hnd.
  { unfold out. rewrite od_keys_cited. apply NoDup_filter, Hiter. }
  assert (length out = length (od_keys out)) as -> by (unfold od_keys; by rewrite length_fmap).
  split.
  - rewrite <- (size_list_to_set (C := gset string) (od_keys out)) by done.
    apply subseteq_size. intros k Hk. apply elem_of_list_to_set in Hk.
    unfold out in Hk. rewrite od_keys_cited in Hk.
    apply list_elem_of_filter in Hk as [_ Hk].
    by apply (set_iter_elem_of _ _ k Hiter).
  - rewrite <- (size_list_to_set (C := gset string) (od_keys out)) by done.
    rewrite <- (size_dom (entries_of bib)).
    apply subseteq_size. intros k Hk. apply elem_of_list_to_set in Hk.
    unfold out in Hk. rewrite od_keys_cited in Hk.
    apply list_elem_of_filter in Hk as [Hk _]. by apply elem_of_dom.
Qed.

Lemma main_writes_cited_records_witness :
  let out := cited_entries (entries_of ref_bib) (ascending (citations_of main_tex)) in
  fits (space (world_of main_tex ref_bib)) (serialized (od_values out)) ∧
  main ascending (world_of main_tex ref_bib) =
    (0%Z, MkWorld (<[output_file := TextFile (serialized (od_values out))]>
                     (files (world_of main_tex ref_bib)))
            (locked (world_of main_tex ref_bib))
            (stdout (world_of main_tex ref_bib)
               ++ progress main_tex ref_bib (length out) ++ ["Processing complete!"])
            (left (space (world_of main_tex ref_bib)) (serialized (od_values out)))) ∧
  (∀ k v, (k, v) ∈ out ↔ k ∈ citations_of main_tex ∧ entries_of ref_bib !! k = Some v) ∧
  length out ≤ size (citations_of main_tex) ∧ length out ≤ size (entries_of ref_bib).
Proof.
  assert (files (world_of main_tex ref_bib) !! tex_file = Some (TextFile main_tex)) as Htex.
  { vm_compute. reflexivity. }
  assert (files (world_of main_tex ref_bib) !! bib_file = Some (TextFile ref_bib)) as Hbib.
  { vm_compute. reflexivity. }
  assert (output_file ∉ locked (world_of main_tex ref_bib)) as Hfree.
  { apply (bool_decide_unpack _). vm_compute. exact I. }
  assert (fits (space (world_of main_tex ref_bib))
            (serialized (od_values
               (cited_entries (entries_of ref_bib) (ascending (citations_of main_tex))))))
    as Hfit.
  { exact I. }
  exact (conj Hfit
           (main_writes_cited_records ascending (world_of main_tex ref_bib) main_tex ref_bib
              (set_iter_ascending _) Htex Hbib Hfree Hfit)).
Defined.

End BibSortRuns.

(** ** More about the matcher: scanning a document *)

Module ScanFacts.

Import Re Spec TextFacts ReFacts.

Lemma lacks_app c (a b : string) : lacks c (a +:+ b) ↔ lacks c a ∧ lacks c b.
Proof.
  induction a as [|x a IH]; simpl; [tauto|].
  change (lacks c (a +:+ b)) with (lacks c (a +:+ b)). rewrite IH. tauto.
Qed.

Lemma match_at_other_head c r a s :
  a ≠ c → match_at (Cat (Lit c) r) (String a s) = None.
Proof.
  intros Hne. unfold match_at. simpl.
  destruct (Ascii.eqb c a) eqn:E; [|done]. apply Ascii.eqb_eq in E. congruence.
Qed.

(** A scan passes over a text without the first character of the pattern. *)
Lemma scan_pass c r pre s :
  lacks c pre → scan (Cat (Lit c) r) (pre +:+ s) 0 = scan (Cat (Lit c) r) s 0.
Proof.
  induction pre as [|a pre IH]; intros H; [done|].
  destruct H as [Ha Hpre].
  change (String a pre +:+ s) with (String a (pre +:+ s)).
  cbn [scan]. rewrite match_at_other_head by done. by apply IH.
Qed.

(** A match at the start of the text is the first match of the scan. *)
Lemma scan_first r a s rest c :
  match_at r (String a s) = Some (rest, c) →
  ∃ later, scan r (String a s) 0 = c :: later.
Proof. intros H. cbn [scan]. rewrite H. eauto. Qed.

(** After a match the scan goes on behind it. *)
Lemma scan_skip r (x y : string) :
  scan r (x +:+ y) (String.length x) = scan r y 0.
Proof. induction x as [|a x IH]; [done|]. exact IH. Qed.

End ScanFacts.

(** ** More about the bibliography reconciler: extraction and parsing *)

Module BibSortText.

Import Re BibSort Spec Sample TextFacts ReFacts ScanFacts BibSortFacts.

(** X5: when the first backslash of the document starts a recognized command
    with a non-empty argument without a closing brace, every
    comma-separated piece of that argument, stripped, is in the citation
    set. *)
Theorem leftmost_command_is_found (content before name arg after piece : string) :
  name ∈ command_names →
  lacks backslash before →
  arg ≠ EmptyString → lacks "}" arg →
  content = before +:+ String backslash (name +:+ "{") +:+ arg +:+ String "}" after →
  piece ∈ Text.split "," arg →
  Text.strip piece ∈ citations_of content.
Proof.
  intros Hname Hbefore Hne Harg -> Hpiece.
  apply elem_of_citations_of.
  exists (citation_pattern name), arg, piece.
  split; [rewrite citation_patterns_names; by apply list_elem_of_fmap_2|].
  split; [|done].
  unfold findall1, finditer.
  assert (citation_pattern name
          = Cat (Lit backslash) (lit (name +:+ "{")
              (Cat (Group 1 (Plus (not_char "}"))) (Lit "}")))) as Hpat by done.
  rewrite Hpat, scan_pass by done. rewrite <- Hpat.
  assert (match_at (citation_pattern name)
            (String backslash (name +:+ "{") +:+ arg +:+ String "}" after)
          = Some (after, {[1 := arg]})) as Hmatch.
  { apply citation_match. by exists arg. }
  change (String backslash (name +:+ "{") +:+ arg +:+ String "}" after)
    with (String backslash ((name +:+ "{") +:+ arg +:+ String "}" after)) in *.
  destruct (scan_first _ _ _ _ _ Hmatch) as [later ->].
  rewrite fmap_cons. unfold group at 1. rewrite lookup_singleton_eq. simpl.
  apply list_elem_of_here.
Qed.

Lemma leftmost_command_is_found_witness :
  Text.strip " B" ∈ citations_of ("See " +:+ String backslash ("citep" +:+ "{")
                                    +:+ "A, B" +:+ String "}" " and more.").
Proof.
  assert ("citep" ∈ command_names) as Hname.
  { apply (bool_decide_unpack _). vm_compute. exact I. }
  assert (lacks backslash "See ") as Hbefore.
  { vm_compute. repeat split; discriminate. }
  assert ("A, B" ≠ EmptyString) as Hne by discriminate.
  assert (lacks "}" "A, B") as Harg.
  { vm_compute. repeat split; discriminate. }
  assert (" B" ∈ Text.split "," "A, B") as Hpiece.
  { apply (bool_decide_unpack _). vm_compute. exact I. }
  exact (leftmost_command_is_found _ "See " "citep" "A, B" " and more." " B"
           Hname Hbefore Hne Harg eq_refl Hpiece).
Defined.

Lemma lacks_names name : name ∈ command_names → lacks backslash name.
Proof.
  unfold command_names. intros H.
  repeat (apply elem_of_cons in H as [->|H];
          [vm_compute; repeat split; discriminate|]).
  by apply elem_of_nil in H.
Qed.

Lemma bracket_is_no_command name name' after :
  name ∈ command_names → name' ∈ command_names →
  match_at (citation_pattern name') (String backslash (name +:+ String "[" after)) = None.
Proof.
  intros Hname Hname'.
  destruct (match_at _ _) as [[rest c]|] eqn:E; [|done].
  apply citation_match in E as (arg & _ & _ & E & _). exfalso.
  unfold command_names in *.
  repeat (apply elem_of_cons in Hname as [->|Hname]);
    try (by apply elem_of_nil in Hname);
    repeat (apply elem_of_cons in Hname' as [->|Hname']);
    try (by apply elem_of_nil in Hname');
    vm_compute in E; discriminate E.
Qed.

(** X6: a command with an optional argument in brackets is not recognized.
    When the only backslash of the document starts a command name followed
    by an opening bracket, the citation set is empty, whatever follows. *)
Theorem optional_argument_is_not_recognized (content before name after : string) :
  name ∈ command_names →
  lacks backslash before → lacks backslash after →
  content = before +:+ String backslash (name +:+ String "[" after) →
  citations_of content = ∅.
Proof.
  intros Hname Hbefore Hafter ->.
  apply no_citation_command_empty. unfold no_citation_command.
  apply Forall_forall. intros p Hp.
  rewrite citation_patterns_names in Hp.
  apply list_elem_of_fmap in Hp as (name' & -> & Hname').
  unfold findall1, finditer.
  assert (citation_pattern name'
          = Cat (Lit backslash) (lit (name' +:+ "{")
              (Cat (Group 1 (Plus (not_char "}"))) (Lit "}")))) as Hpat by done.
  rewrite Hpat, scan_pass by done.
  cbn [scan]. rewrite <- Hpat, bracket_is_no_command by done.
  rewrite Hpat, scan_no_head; [done|].
  apply lacks_app. split; [by apply lacks_names|]. split; [discriminate|done].
Qed.

Lemma optional_argument_is_not_recognized_witness :
  citations_of ("See " +:+ String backslash ("cite" +:+ String "[" "p. 3]{knuth}.")) = ∅.
Proof.
  assert ("cite" ∈ command_names) as Hname.
  { apply (bool_decide_unpack _). vm_compute. exact I. }
  assert (lacks backslash "See ") as Hbefore.
  { vm_compute. repeat split; discriminate. }
  assert (lacks backslash "p. 3]{knuth}.") as Hafter.
  { vm_compute. repeat split; discriminate. }
  exact (optional_argument_is_not_recognized _ "See " "cite" "p. 3]{knuth}."
           Hname Hbefore Hafter eq_refl).
Defined.

Lemma later_block_elem key ms full :
  later_block key ms = Some full →
  ∃ name, (full, name) ∈ ms ∧ Text.strip name = key.
Proof.
  unfold later_block. intros H.
  destruct (last (filter _ ms)) as [[f name]|] eqn:E; [|done].
  injection H as ->.
  apply last_Some_elem_of, list_elem_of_filter in E as [Hkey Hin].
  by exists name.
Qed.

(** Stripping keeps the characters of a class. *)
Lemma all_chars_lstrip p s : all_chars p s → all_chars p (Text.lstrip s).
Proof.
  induction s as [|a s IH]; [done|]. intros [Ha Hs]. simpl.
  destruct (Text.isspace a); [by apply IH|done].
Qed.

Lemma all_chars_rstrip p s : all_chars p s → all_chars p (Text.rstrip s).
Proof.
  induction s as [|a s IH]; [done|]. intros [Ha Hs]. simpl.
  specialize (IH Hs). destruct (Text.rstrip s) as [|b r].
  - by destruct (Text.isspace a).
  - done.
Qed.

(** X7: every entry of the mapping that the parser builds is a block of the
    source with the shape of an entry: the marker, a type of word
    characters, a brace, the key, a comma, a body, and a closing brace alone
    on its line after optional whitespace.  Its key in the mapping is the
    key of the block without surrounding whitespace, and has no comma and
    no line break. *)
Theorem parsed_entries_are_source_blocks (content key full : string) :
  entries_of content !! key = Some full →
  ∃ before after ty name body ws,
    content = before +:+ full +:+ after ∧
    full = String "@" ty +:+ String "{" name +:+ String "," body
             +:+ String Text.newline ws +:+ String "}" EmptyString ∧
    ty ≠ EmptyString ∧ all_chars Text.isword ty ∧
    all_chars Text.isspace ws ∧
    key = Text.strip name ∧ trimmed key ∧ all_chars key_char key.
Proof.
  rewrite lookup_entries_of. intros H.
  apply later_block_elem in H as (name & Hin & <-).
  apply findall2_entry in Hin
    as (before & after & ty & body & ws & -> & Hty & Hw & _ & Hkc & Hws & ->).
  exists before, after, ty, name, body, ws.
  repeat split; try done; try apply strip_trimmed.
  unfold Text.strip. by apply all_chars_rstrip, all_chars_lstrip.
Qed.

Lemma parsed_entries_are_source_blocks_witness :
  ∃ before after ty name body ws,
    twice_bib = before +:+ entry_A' +:+ after ∧
    entry_A' = String "@" ty +:+ String "{" name +:+ String "," body
             +:+ String Text.newline ws +:+ String "}" EmptyString ∧
    ty ≠ EmptyString ∧ all_chars Text.isword ty ∧
    all_chars Text.isspace ws ∧
    "A" = Text.strip name ∧ trimmed "A" ∧ all_chars key_char "A".
Proof.
  assert (entries_of twice_bib !! "A" = Some entry_A') as H.
  { vm_compute. reflexivity. }
  exact (parsed_entries_are_source_blocks twice_bib "A" entry_A' H).
Defined.

Lemma lacks_head c s : ¬ lacks c (String c s).
Proof. simpl. by intros [? _]. Qed.

(** X8: a bibliography source without the marker [@], or without a line
    break (every entry on one line, the closing brace not on a line of its
    own), gives no entry at all. *)
Theorem source_without_line_break_has_no_entry (content : string) :
  lacks "@" content ∨ lacks Text.newline content →
  entries_of content = ∅ ∧ findall2 entry_pattern content = [].
Proof.
  intros Hlacks.
  assert (findall2 entry_pattern content = []) as Hnone.
  { destruct (findall2 entry_pattern content) as [|[full name] l] eqn:E; [done|].
    exfalso.
    assert ((full, name) ∈ findall2 entry_pattern content) as Hin
      by (rewrite E; apply list_elem_of_here).
    apply findall2_entry in Hin
      as (before & after & ty & body & ws & -> & _ & _ & _ & _ & _ & ->).
    destruct Hlacks as [H|H].
    - apply lacks_app in H as [_ H]. apply lacks_app in H as [H _].
      by apply lacks_head in H.
    - apply lacks_app in H as [_ H]. apply lacks_app in H as [H _].
      change (String "@" ty +:+ ?x) with (String "@" (ty +:+ x)) in H.
      destruct H as [_ H]. apply lacks_app in H as [_ H].
      change (String "{" name +:+ ?x) with (String "{" (name +:+ x)) in H.
      destruct H as [_ H]. apply lacks_app in H as [_ H].
      change (String "," body +:+ ?x) with (String "," (body +:+ x)) in H.
      destruct H as [_ H]. apply lacks_app in H as [_ H].
      by apply lacks_head in H. }
  split; [|done]. unfold entries_of. by rewrite Hnone.
Qed.

Lemma source_without_line_break_has_no_entry_witness :
  entries_of "@misc{knuth, title={TAOCP}}" = ∅ ∧
  findall2 entry_pattern "@misc{knuth, title={TAOCP}}" = [].
Proof.
  assert (lacks "@" "@misc{knuth, title={TAOCP}}"
          ∨ lacks Text.newline "@misc{knuth, title={TAOCP}}") as H.
  { right. vm_compute. repeat split; discriminate. }
  exact (source_without_line_break_has_no_entry "@misc{knuth, title={TAOCP}}" H).
Defined.

(** X9: entries that are not cited have no influence: two mappings that
    agree on the cited keys give the same output. *)
Theorem uncited_entries_do_not_matter (bib1 bib2 : gmap string string)
    (citations : gset string) (order : list string) :
  set_iter citations order →
  (∀ k, k ∈ citations → bib1 !! k = bib2 !! k) →
  filter_and_sort_bib_entries bib1 order = filter_and_sort_bib_entries bib2 order.
Proof.
  intros Hiter Hagree.
  rewrite !filter_and_sort_run by apply Hiter. f_equal.
  apply cited_entries_ext. intros k Hk. apply Hagree.
  by apply (set_iter_elem_of _ _ k Hiter).
Qed.

Lemma uncited_entries_do_not_matter_witness :
  filter_and_sort_bib_entries (entries_of ref_bib) ["B"; "A"]
  = filter_and_sort_bib_entries (delete "D" (entries_of ref_bib)) ["B"; "A"].
Proof.
  assert (set_iter {["A"; "B"]} ["B"; "A"]) as Hiter.
  { apply (bool_decide_unpack _). vm_compute. exact I. }
  assert (∀ k, k ∈ ({["A"; "B"]} : gset string) →
            entries_of ref_bib !! k = delete "D" (entries_of ref_bib) !! k) as Hagree.
  { intros k Hk. rewrite lookup_delete_ne; [done|]. intros <-.
    revert Hk. apply (bool_decide_unpack _). vm_compute. exact I. }
  exact (uncited_entries_do_not_matter _ _ _ _ Hiter Hagree).
Defined.

End BibSortText.

(** ** More about the matcher: entries on their own *)

Module EntryFacts.

Import Re Spec TextFacts ReFacts ScanFacts.

(** A greedy repetition before something that cannot start inside the class
    goes to the end of the run. *)
Lemma star_greedy_lstrip s k :
  (∀ c s', Text.isspace c = true → k (String c s') = None) →
  star_greedy Text.isspace s k = k (Text.lstrip s).
Proof.
  intros Hk. induction s as [|a s IH]; simpl; [done|].
  destruct (Text.isspace a) eqn:Ha; [|done].
  rewrite IH. destruct (k (Text.lstrip s)) eqn:E; [done|].
  destruct (Text.lstrip s) as [|b r] eqn:El.
  - by rewrite Hk.
  - by rewrite Hk.
Qed.

(** The end of the pattern, [\n\s*\}], only looks at the text. *)
Lemma run_closing t (c : caps) k :
  run (Cat (Lit Text.newline) (Cat (Star Text.isspace) (Lit "}"))) t c k =
  match closes t with
  | Some r => k r c
  | None => None
  end.
Proof.
  rewrite run_Cat. unfold closes. destruct t as [|a t]; [done|]. cbn [run].
  destruct (Ascii.eqb Text.newline a); [|done].
  rewrite star_greedy_lstrip.
  - cbv beta. destruct (Text.lstrip t) as [|b r]; [done|].
    by destruct (Ascii.eqb "}" b).
  - intros ch s' Hch. destruct (Ascii.eqb "}" ch) eqn:E; [|done].
    apply Ascii.eqb_eq in E as <-. done.
Qed.

(** A lazy repetition stops at the first place where what follows matches. *)
Lemma star_lazy_first p s k res :
  star_lazy p s k = Some res →
  ∃ pre s',
    s = pre +:+ s' ∧ all_chars p pre ∧ k s' = Some res ∧
    ∀ u v, pre = u +:+ v → v ≠ EmptyString → k (v +:+ s') = None.
Proof.
  induction s as [|a s IH]; simpl; intros H.
  - destruct (k EmptyString) eqn:E; [|done]. injection H as <-.
    exists EmptyString, EmptyString. repeat split; try done.
    intros u v Huv Hv. destruct u; destruct v; done.
  - destruct (k (String a s)) eqn:E.
    + injection H as <-. exists EmptyString, (String a s). repeat split; try done.
      intros u v Huv Hv. destruct u; destruct v; done.
    + destruct (p a) eqn:Ha; [|done].
      destruct (IH H) as (pre & s' & -> & Hpre & Hk & Hmin).
      exists (String a pre), s'. repeat split; try done.
      intros u v Huv Hv. destruct u as [|b u].
      * change (EmptyString +:+ v) with v in Huv. subst v. exact E.
      * change (String b u +:+ v) with (String b (u +:+ v)) in Huv.
        injection Huv as -> ->. by apply (Hmin u v).
Qed.

Lemma star_lazy_intro p pre s' k res :
  all_chars p pre → k s' = Some res →
  (∀ u v, pre = u +:+ v → v ≠ EmptyString → k (v +:+ s') = None) →
  star_lazy p (pre +:+ s') k = Some res.
Proof.
  induction pre as [|a pre IH]; intros Hpre Hk Hmin.
  - simpl. destruct s'; simpl; by rewrite Hk.
  - change (String a pre +:+ s') with (String a (pre +:+ s')). simpl.
    assert (k (String a (pre +:+ s')) = None) as ->
      by (by apply (Hmin EmptyString (String a pre))).
    destruct Hpre as [Ha Hpre]. rewrite Ha.
    apply IH; [done|done|].
    intros u v -> Hv. by apply (Hmin (String a u) v).
Qed.

(** Leading whitespace is stripped up to the first other character. *)
Lemma lstrip_local y c r :
  Text.isspace c = false →
  Text.lstrip ((y +:+ String c EmptyString) +:+ r)
  = Text.lstrip (y +:+ String c EmptyString) +:+ r.
Proof.
  intros Hc. induction y as [|a y IH].
  - simpl. by rewrite Hc.
  - change ((String a y +:+ String c EmptyString) +:+ r)
      with (String a ((y +:+ String c EmptyString) +:+ r)).
    change (String a y +:+ String c EmptyString)
      with (String a (y +:+ String c EmptyString)).
    simpl. destruct (Text.isspace a); [exact IH|done].
Qed.

Lemma lstrip_nonempty y c :
  Text.isspace c = false → Text.lstrip (y +:+ String c EmptyString) ≠ EmptyString.
Proof.
  intros Hc. induction y as [|a y IH].
  - simpl. by rewrite Hc.
  - change (String a y +:+ String c EmptyString)
      with (String a (y +:+ String c EmptyString)).
    simpl. by destruct (Text.isspace a).
Qed.

Lemma lstrip_all ws c r :
  all_chars Text.isspace ws → Text.isspace c = false →
  Text.lstrip (ws +:+ String c r) = String c r.
Proof.
  intros Hws Hc. induction ws as [|a ws IH].
  - simpl. by rewrite Hc.
  - destruct Hws as [Ha Hws].
    change (String a ws +:+ String c r) with (String a (ws +:+ String c r)).
    simpl. rewrite Ha. by apply IH.
Qed.

(** Whether a text that ends with a closing brace starts with the end of an
    entry does not depend on what comes after it. *)
Lemma closes_local y r :
  closes ((y +:+ String "}" EmptyString) +:+ r)
  = (fun t => t +:+ r) <$> closes (y +:+ String "}" EmptyString).
Proof.
  destruct y as [|a y]; [done|].
  change ((String a y +:+ String "}" EmptyString) +:+ r)
    with (String a ((y +:+ String "}" EmptyString) +:+ r)).
  change (String a y +:+ String "}" EmptyString)
    with (String a (y +:+ String "}" EmptyString)).
  unfold closes. destruct (Ascii.eqb Text.newline a); [|done].
  rewrite lstrip_local by done.
  pose proof (lstrip_nonempty y "}" eq_refl) as Hne.
  destruct (Text.lstrip (y +:+ String "}" EmptyString)) as [|b t]; [done|].
  change (String b t +:+ r) with (String b (t +:+ r)). cbv iota.
  by destruct (Ascii.eqb "}" b).
Qed.

Lemma closes_closing ws r :
  all_chars Text.isspace ws → closes (closing ws +:+ r) = Some r.
Proof.
  intros Hws. unfold closing.
  change ((String Text.newline ws +:+ String "}" EmptyString) +:+ r)
    with (String Text.newline ((ws +:+ String "}" EmptyString) +:+ r)).
  unfold closes. rewrite Ascii.eqb_refl, str_app_assoc.
  change (String "}" EmptyString +:+ r) with (String "}" r).
  by rewrite lstrip_all.
Qed.

Lemma lstrip_all_space s : all_chars Text.isspace s → Text.lstrip s = EmptyString.
Proof.
  induction s as [|a s IH]; [done|]. intros [Ha Hs]. simpl. rewrite Ha. by apply IH.
Qed.

Lemma run_StarLazy_first p s c k res :
  run (StarLazy p) s c k = Some res →
  ∃ pre s',
    all_chars p pre ∧ s = pre +:+ s' ∧ k s' c = Some res ∧
    ∀ u v, pre = u +:+ v → v ≠ EmptyString → k (v +:+ s') c = None.
Proof.
  simpl. intros H. apply star_lazy_first in H as (pre & s' & -> & Hpre & Hk & Hmin).
  by exists pre, s'.
Qed.

Lemma run_StarLazy_eq p s c k :
  run (StarLazy p) s c k = star_lazy p s (fun s' => k s' c).
Proof. done. Qed.

Lemma run_Lit_same a s c k : run (Lit a) (String a s) c k = k s c.
Proof. simpl. by rewrite Ascii.eqb_refl. Qed.

Lemma run_Lit_other a b s c k : a ≠ b → run (Lit a) (String b s) c k = None.
Proof.
  intros Hne. simpl. destruct (Ascii.eqb a b) eqn:E; [|done].
  apply Ascii.eqb_eq in E. done.
Qed.

(** A greedy repetition of at least one character, before something that
    cannot start inside the class, takes the whole run. *)
Lemma run_Plus_stop p x c0 rest c k :
  x ≠ EmptyString → all_chars p x → p c0 = false →
  (∀ a s', p a = true → k (String a s') c = None) →
  run (Plus p) (x +:+ String c0 rest) c k = k (String c0 rest) c.
Proof.
  intros Hne Hx Hc0 Hk. destruct x as [|b x]; [done|]. destruct Hx as [Hb Hx].
  change (String b x +:+ String c0 rest) with (String b (x +:+ String c0 rest)).
  cbn [run]. rewrite Hb. by rewrite star_greedy_stop.
Qed.

Lemma block_text ty name body ws rest :
  (String "@" ty +:+ String "{" name +:+ String "," body +:+ closing ws) +:+ rest
  = String "@" (ty +:+ String "{" (name +:+ String "," (body +:+ closing ws +:+ rest))).
Proof. rewrite !str_app_assoc. reflexivity. Qed.

(** A match of the entry pattern takes an entry block from the text. *)
Lemma entry_match_block s rest c :
  match_at BibSort.entry_pattern s = Some (rest, c) →
  ∃ full name,
    s = full +:+ rest ∧ group 1 c = full ∧ group 2 c = name ∧
    c = <[1 := full]> (<[2 := name]> ∅) ∧ entry_block full name.
Proof.
  unfold match_at, BibSort.entry_pattern. rewrite run_Group. intros H.
  next_in H. apply run_Lit in H as (s1 & -> & H).
  next_in H. apply run_Plus in H as (ty & s2 & Hty & Htyw & -> & H).
  next_in H. apply run_Lit in H as (s3 & -> & H).
  next_in H. rewrite run_Group in H.
  apply run_Plus in H as (key & s4 & Hkey & Hkeyc & -> & H).
  next_in H. apply run_Lit in H as (s5 & -> & H).
  next_in H. apply run_StarLazy_first in H as (body & s6 & _ & -> & H & Hmin).
  cbv beta in H. rewrite run_closing in H.
  destruct (closes s6) as [r|] eqn:Hclose; [|done].
  injection H as -> <-.
  assert (∃ ws, all_chars Text.isspace ws ∧ s6 = closing ws +:+ rest) as (ws & Hws & ->).
  { unfold closes in Hclose. destruct s6 as [|a s6]; [done|].
    destruct (Ascii.eqb Text.newline a) eqn:Ha; [|done].
    apply Ascii.eqb_eq in Ha as <-.
    destruct (span_cases Text.isspace s6) as [Hall|(ws & c0 & t & -> & Hws & Hc0)].
    - rewrite (lstrip_all_space s6 Hall) in Hclose. done.
    - rewrite lstrip_all in Hclose by done.
      destruct (Ascii.eqb "}" c0) eqn:E; [|done].
      apply Ascii.eqb_eq in E as <-. injection Hclose as ->.
      exists ws. split; [done|]. unfold closing. rewrite str_app_assoc. done. }
  exists (String "@" ty +:+ String "{" key +:+ String "," body +:+ closing ws), key.
  assert (consumed (key +:+ String "," (body +:+ closing ws +:+ rest))
                   (String "," (body +:+ closing ws +:+ rest)) = key) as Hk
    by apply consumed_append.
  assert (consumed (String "@" (ty +:+ String "{" (key +:+ String ","
                     (body +:+ closing ws +:+ rest)))) rest
          = String "@" ty +:+ String "{" key +:+ String "," body +:+ closing ws) as Hf.
  { rewrite <- block_text. apply consumed_append. }
  rewrite Hk, Hf.
  split; [by rewrite block_text|].
  split; [unfold group; by rewrite lookup_insert_eq|].
  split; [unfold group; by rewrite lookup_insert_ne, lookup_insert_eq|].
  split; [done|].
  exists ty, body, ws. repeat split; try done.
  intros u v Huv Hv.
  specialize (Hmin u v Huv Hv). cbv beta in Hmin. rewrite run_closing in Hmin.
  destruct (closes (v +:+ closing ws +:+ rest)) as [r|] eqn:E; [done|].
  unfold closing in *. rewrite <- !str_app_assoc in E.
  rewrite closes_local in E. rewrite <- str_app_assoc.
  by destruct (closes ((v +:+ String Text.newline ws) +:+ String "}" EmptyString)).
Qed.

Lemma word_not_brace a : Text.isword a = true → "{"%char ≠ a.
Proof. intros H <-. vm_compute in H. discriminate. Qed.

Lemma key_not_comma a : BibSort.key_char a = true → ","%char ≠ a.
Proof. intros H <-. vm_compute in H. discriminate. Qed.

(** An entry block is matched as a whole wherever it stands. *)
Lemma entry_block_match full name rest :
  entry_block full name →
  match_at BibSort.entry_pattern (full +:+ rest)
  = Some (rest, <[1 := full]> (<[2 := name]> ∅)).
Proof.
  intros (ty & body & ws & -> & Hty & Htyw & Hname & Hnamec & Hws & Hmin).
  unfold match_at, BibSort.entry_pattern. rewrite run_Group.
  set (K := fun (s' : string) (c' : caps) => Some (s', <[1 := consumed _ s']> c')).
  rewrite block_text.
  rewrite run_Cat, run_Lit_same. cbv beta.
  rewrite run_Cat, run_Plus_stop; [|done|done|done|]; cycle 1.
  { intros a s' Ha. rewrite run_Cat. apply run_Lit_other. by apply word_not_brace. }
  cbv beta. rewrite run_Cat, run_Lit_same. cbv beta.
  rewrite run_Cat, run_Group, run_Plus_stop; [|done|done|done|]; cycle 1.
  { intros a s' Ha. cbv beta. rewrite run_Cat. apply run_Lit_other.
    by apply key_not_comma. }
  cbv beta. rewrite run_Cat, run_Lit_same. cbv beta.
  rewrite run_Cat, run_StarLazy_eq.
  apply star_lazy_intro.
  - clear. induction body as [|a body IH]; [done|]. split; [done|exact IH].
  - cbv beta. rewrite run_closing, closes_closing by done. unfold K.
    by rewrite !consumed_append.
  - intros u v Huv Hv. cbv beta. rewrite run_closing.
    pose proof (Hmin u v Huv Hv) as E.
    unfold closing in *. rewrite <- !str_app_assoc. rewrite closes_local.
    rewrite <- str_app_assoc in E. by rewrite E.
Qed.

Lemma entry_no_marker a s :
  a ≠ "@"%char → match_at BibSort.entry_pattern (String a s) = None.
Proof.
  intros Hne. unfold match_at, BibSort.entry_pattern.
  rewrite run_Group, run_Cat. by apply run_Lit_other.
Qed.

(** The blocks that the parser finds are entry blocks. *)
Lemma findall2_are_blocks content m :
  m ∈ findall2 BibSort.entry_pattern content → entry_block m.1 m.2.
Proof.
  unfold findall2, finditer. intros Hm.
  apply list_elem_of_fmap in Hm as (c & -> & Hc).
  apply scan_elem in Hc as (pre & s' & rest & -> & Hmatch).
  apply entry_match_block in Hmatch as (full & name & _ & -> & -> & _ & Hblock).
  done.
Qed.

(** An entry block followed by an empty line is found, and the scan goes on
    after the empty line. *)
Lemma findall2_block full name rest :
  entry_block full name →
  findall2 BibSort.entry_pattern (full +:+ BibSort.nl2 +:+ rest)
  = (full, name) :: findall2 BibSort.entry_pattern rest.
Proof.
  intros Hblock. unfold findall2, finditer.
  pose proof (entry_block_match full name (BibSort.nl2 +:+ rest) Hblock) as Hmatch.
  destruct Hblock as (ty & body & ws & Hfull & _).
  assert (∃ tail, full = String "@" tail) as [tail ->] by (rewrite Hfull; eauto).
  change (String "@" tail +:+ BibSort.nl2 +:+ rest)
    with (String "@" (tail +:+ BibSort.nl2 +:+ rest)) in *.
  cbn [scan]. rewrite Hmatch.
  rewrite fmap_cons. cbv beta.
  assert (group 1 (<[1 := String "@" tail]> (<[2 := name]> (∅ : caps))) = String "@" tail)
    as -> by (unfold group; by rewrite lookup_insert_eq).
  assert (group 2 (<[1 := String "@" tail]> (<[2 := name]> (∅ : caps))) = name)
    as -> by (unfold group; by rewrite lookup_insert_ne, lookup_insert_eq).
  f_equal.
  match goal with
  | |- context [scan _ _ ?n] => replace n with (String.length tail)
  end; [|cbn [String.length]; rewrite !length_append; lia].
  rewrite scan_skip. unfold BibSort.nl2.
  change (String Text.newline (String Text.newline EmptyString) +:+ rest)
    with (String Text.newline (String Text.newline rest)).
  cbn [scan]. rewrite !entry_no_marker by done. done.
Qed.

Lemma findall2_serialized ms :
  Forall (fun m => entry_block m.1 m.2) ms →
  findall2 BibSort.entry_pattern (serialized (fst <$> ms)) = ms.
Proof.
  induction 1 as [|[full name] ms Hm _ IH]; [done|].
  rewrite fmap_cons. cbn [serialized fst].
  rewrite (findall2_block full name) by done. by rewrite IH.
Qed.

End EntryFacts.

(** ** More about the bibliography reconciler: reading the output back *)

Module BibSortRoundTrip.

Import Re BibSort Spec Sample TextFacts ReFacts ScanFacts EntryFacts BibSortFacts
  BibSortRuns.

Lemma lookup_entries_pick src k :
  entries_of src !! k = fst <$> pick k (findall2 entry_pattern src).
Proof. apply lookup_entries_of. Qed.

Lemma pick_elem k ms m : pick k ms = Some m → m ∈ ms ∧ Text.strip m.2 = k.
Proof.
  unfold pick. intros H.
  apply last_Some_elem_of, list_elem_of_filter in H as [Hk Hin]. done.
Qed.

Lemma omap_cons_pick ms a ks :
  omap (fun k => pick k ms) (a :: ks) =
  match pick a ms with
  | Some m => m :: omap (fun k => pick k ms) ks
  | None => omap (fun k => pick k ms) ks
  end.
Proof. done. Qed.

(** The texts of the output are those of the picked matches. *)
Lemma values_picked src order :
  od_values (cited_entries (entries_of src) order)
  = fst <$> omap (fun k => pick k (findall2 entry_pattern src)) order.
Proof.
  induction order as [|a ks IH]; [done|].
  rewrite cited_entries_cons, omap_cons_pick, lookup_entries_pick.
  destruct (pick a _) as [m|]; simpl; [|exact IH].
  unfold od_values in *. f_equal. exact IH.
Qed.

Lemma picked_are_blocks src order :
  Forall (fun m => entry_block m.1 m.2)
    (omap (fun k => pick k (findall2 entry_pattern src)) order).
Proof.
  apply Forall_forall. intros m Hm.
  apply list_elem_of_omap in Hm as (k & _ & Hpick).
  apply pick_elem in Hpick as [Hin _]. by apply findall2_are_blocks in Hin.
Qed.

(** Among the picked matches of distinct keys, a key has at most its own. *)
Lemma later_block_picked ms order k :
  NoDup order →
  later_block k (omap (fun k' => pick k' ms) order)
  = if decide (k ∈ order) then fst <$> pick k ms else None.
Proof.
  induction order as [|a ks IH]; intros Hnd.
  - by rewrite decide_False by apply not_elem_of_nil.
  - apply NoDup_cons in Hnd as [Ha Hnd]. specialize (IH Hnd).
    rewrite omap_cons_pick.
    destruct (pick a ms) as [m|] eqn:Hpick.
    + apply pick_elem in Hpick as Hm. destruct Hm as [_ Hkey].
      rewrite later_block_cons, IH.
      destruct (decide (k = a)) as [->|Hne].
      * rewrite (decide_False (P := a ∈ ks)) by done.
        rewrite (decide_True (P := Text.strip m.2 = a)) by done.
        rewrite (decide_True (P := a ∈ a :: ks)) by apply list_elem_of_here.
        by rewrite Hpick.
      * rewrite (decide_False (P := Text.strip m.2 = k)) by congruence.
        destruct (decide (k ∈ ks)) as [Hin|Hnin].
        -- rewrite (decide_True (P := k ∈ a :: ks)) by (by apply list_elem_of_further).
           by destruct (pick k ms).
        -- rewrite decide_False; [done|]. intros [?|?]%elem_of_cons; done.
    + rewrite IH. destruct (decide (k = a)) as [->|Hne].
      * rewrite (decide_False (P := a ∈ ks)) by done.
        rewrite (decide_True (P := a ∈ a :: ks)) by apply list_elem_of_here.
        by rewrite Hpick.
      * destruct (decide (k ∈ ks)) as [Hin|Hnin].
        -- by rewrite (decide_True (P := k ∈ a :: ks)) by (by apply list_elem_of_further).
        -- rewrite decide_False; [done|]. intros [?|?]%elem_of_cons; done.
Qed.

(** The blocks found in the text of the output are its entries, in order. *)
Lemma findall2_output src order :
  findall2 entry_pattern (serialized (od_values (cited_entries (entries_of src) order)))
  = omap (fun k => pick k (findall2 entry_pattern src)) order.
Proof.
  rewrite values_picked. apply findall2_serialized, picked_are_blocks.
Qed.

(** Parsing the text of the output gives the mapping of the source, cut down
    to the keys of the output. *)
Lemma lookup_reparsed src order k :
  NoDup order →
  entries_of (serialized (od_values (cited_entries (entries_of src) order))) !! k
  = if decide (k ∈ order) then entries_of src !! k else None.
Proof.
  intros Hnd. rewrite lookup_entries_of, findall2_output.
  rewrite later_block_picked by done. by rewrite lookup_entries_pick.
Qed.

(** X10: the file that the serializer writes for an output of the
    filter-and-reorder step, on a device that takes the whole text, can be
    parsed back: the parser finds in it exactly the texts of the output, in
    order, and builds from it the mapping of the source cut down to the
    cited keys. *)
Theorem written_file_parses_back (src path : string) (citations : gset string)
    (order : list string) (w : world) :
  set_iter citations order →
  path ∉ locked w →
  let out := cited_entries (entries_of src) order in
  fits (space w) (serialized (od_values out)) →
  let w' := (write_bib_file out path w).2 in
  ∃ entries,
    parse_bib_file path w' = (inr entries, w') ∧
    (∀ k, entries !! k = if decide (k ∈ citations) then entries_of src !! k else None) ∧
    fst <$> findall2 entry_pattern (serialized (od_values out)) = od_values out.
Proof.
  intros Hiter Hfree out Hfit w'. unfold w'.
  rewrite write_bib_file_run by done. simpl.
  exists (entries_of (serialized (od_values out))).
  split; [|split].
  - rewrite parse_run. simpl. by rewrite lookup_insert_eq.
  - intros k. unfold out. rewrite lookup_reparsed by apply Hiter.
    destruct (decide (k ∈ order)) as [Hin|Hnin].
    + by rewrite decide_True by (by apply (set_iter_elem_of _ _ k Hiter)).
    + rewrite decide_False; [done|]. by rewrite <- (set_iter_elem_of _ _ k Hiter).
  - unfold out. rewrite findall2_output. symmetry. apply values_picked.
Qed.

Lemma written_file_parses_back_witness :
  let out := cited_entries (entries_of twice_bib) ["B"; "A"] in
  let w' := (write_bib_file out output_file empty_world).2 in
  ∃ entries,
    parse_bib_file output_file w' = (inr entries, w') ∧
    (∀ k, entries !! k = if decide (k ∈ ({["A"; "B"]} : gset string))
                         then entries_of twice_bib !! k else None) ∧
    fst <$> findall2 entry_pattern (serialized (od_values out)) = od_values out.
Proof.
  assert (set_iter {["A"; "B"]} ["B"; "A"]) as Hiter.
  { apply (bool_decide_unpack _). vm_compute. exact I. }
  assert (output_file ∉ locked empty_world) as Hfree.
  { apply (bool_decide_unpack _). vm_compute. exact I. }
  exact (written_file_parses_back twice_bib output_file _ _ empty_world Hiter Hfree I).
Defined.

(** X11: the output is a fixed point of the reconciler.  On a device that
    takes all that is written, after a successful run, a second run that
    takes the output file of the first as its bibliography source succeeds
    too and writes the same output file. *)
Theorem rerun_on_output_reproduces_it (enumerate : gset string → list string)
    (w : world) (doc bib : string) :
  set_iter (citations_of doc) (enumerate (citations_of doc)) →
  files w !! tex_file = Some (TextFile doc) →
  files w !! bib_file = Some (TextFile bib) →
  output_file ∉ locked w →
  space w = None →
  let w1 := (main enumerate w).2 in
  ∃ written,
    files w1 !! output_file = Some (TextFile written) ∧
    let w2 := World (<[bib_file := TextFile written]> (files w1)) (locked w1) (stdout w1) in
    (main enumerate w2).1 = 0%Z ∧
    files (main enumerate w2).2 !! output_file = Some (TextFile written).
Proof.
  intros Hiter Htex Hbib Hfree Hsp w1.
  set (order := enumerate (citations_of doc)) in *.
  set (out := cited_entries (entries_of bib) order).
  assert (w1 = World (<[output_file := TextFile (serialized (od_values out))]> (files w))
                 (locked w)
                 (stdout w ++ progress doc bib (length out) ++ ["Processing complete!"]))
    as Hw1.
  { unfold w1, main.
    rewrite (main_try_written enumerate w doc bib out); try done.
    - by rewrite Hsp.
    - apply filter_and_sort_run, Hiter.
    - by rewrite Hsp. }
  exists (serialized (od_values out)). rewrite Hw1. simpl.
  split; [apply lookup_insert_eq|].
  set (w2 := World _ _ _).
  assert (files w2 !! tex_file = Some (TextFile doc)) as Htex2.
  { unfold w2. simpl. by rewrite !lookup_insert_ne. }
  assert (files w2 !! bib_file = Some (TextFile (serialized (od_values out)))) as Hbib2.
  { unfold w2. simpl. apply lookup_insert_eq. }
  assert (output_file ∉ locked w2) as Hfree2 by done.
  assert (cited_entries (entries_of (serialized (od_values out))) order = out) as Hsame.
  { apply cited_entries_ext. intros k Hk. unfold out.
    rewrite lookup_reparsed by apply Hiter. by rewrite decide_True. }
  assert (filter_and_sort_bib_entries (entries_of (serialized (od_values out))) order
          = inr out) as Hout2.
  { rewrite filter_and_sort_run by apply Hiter. by rewrite Hsame. }
  unfold main.
  rewrite (main_try_written enumerate w2 doc _ out Htex2 Hbib2 Hfree2 Hout2 I).
  simpl. split; [done|]. by rewrite lookup_insert_eq.
Qed.

Lemma rerun_on_output_reproduces_it_witness :
  let w1 := (main ascending (world_of main_tex twice_bib)).2 in
  ∃ written,
    files w1 !! output_file = Some (TextFile written) ∧
    let w2 := World (<[bib_file := TextFile written]> (files w1)) (locked w1) (stdout w1) in
    (main ascending w2).1 = 0%Z ∧
    files (main ascending w2).2 !! output_file = Some (TextFile written).
Proof.
  assert (files (world_of main_tex twice_bib) !! tex_file = Some (TextFile main_tex)) as Htex.
  { vm_compute. reflexivity. }
  assert (files (world_of main_tex twice_bib) !! bib_file = Some (TextFile twice_bib)) as Hbib.
  { vm_compute. reflexivity. }
  assert (output_file ∉ locked (world_of main_tex twice_bib)) as Hfree.
  { apply (bool_decide_unpack _). vm_compute. exact I. }
  exact (rerun_on_output_reproduces_it ascending (world_of main_tex twice_bib)
           main_tex twice_bib (set_iter_ascending _) Htex Hbib Hfree eq_refl).
Defined.

End BibSortRoundTrip.

(** ** More about the truncation script *)

Module SplitPdfRuns.

Import SplitPdf SplitPdfFacts Spec.

Lemma replace_without_dot stem :
  lacks "." stem → Text.replace ".pdf" EmptyString (stem +:+ ".pdf") = stem.
Proof.
  unfold Text.replace. induction stem as [|c stem IH]; intros H; [done|].
  destruct H as [Hc Hstem].
  change (String c stem +:+ ".pdf") with (String c (stem +:+ ".pdf")).
  rewrite TextFacts.replace_go_look.
  assert (Text.startswith ".pdf" (String c (stem +:+ ".pdf")) = false) as ->.
  { destruct (Text.startswith ".pdf" (String c (stem +:+ ".pdf"))) eqn:E; [|done].
    apply TextFacts.startswith_spec in E as [r E].
    change (".pdf" +:+ r) with (String "." ("pdf" +:+ r)) in E. congruence. }
  by rewrite IH.
Qed.

Lemma base_name_without_dot stem :
  lacks "." stem → base_name stem = stem ∧ base_name (stem +:+ ".pdf") = stem.
Proof.
  intros H. unfold base_name. split.
  - destruct (Text.endswith ".pdf" stem) eqn:E; [|done].
    apply TextFacts.endswith_spec in E as [pre ->].
    apply ScanFacts.lacks_app in H as [_ H]. by destruct H.
  - assert (Text.endswith ".pdf" (stem +:+ ".pdf") = true) as ->
      by (apply TextFacts.endswith_spec; eauto).
    by apply replace_without_dot.
Qed.

Section Pdf.

Context {page : Type}.

Implicit Types (w : world page) (pages : list page).


Lemma main_with_module script pdf_name rest w :
  has_pypdf2 w = true →
  main (script :: pdf_name :: rest) w =
  process_pdf pdf_name
    (World (files w) (has_pypdf2 w) (stdout w ++ ["All requirements satisfied."])).
Proof.
  intros Hok. destruct w as [fs ok out]. simpl in *. subst ok.
  unfold main, mbind, M_bind, check_requirements, print. done.
Qed.

Lemma run_once script pdf_name w pages :
  has_pypdf2 w = true →
  files w !! input_file pdf_name = Some (PdfFile pages) →
  ∃ out,
    main [script; pdf_name] w =
    (inr tt,
     World (<[input_file pdf_name := PdfFile (take (length pages `min` 5) pages)]>
              (<[backup_file pdf_name := PdfFile pages]> (files w)))
       (has_pypdf2 w) out).
Proof.
  intros Hok Hin. rewrite main_with_module by done.
  rewrite (process_pdf_run pdf_name _ pages) by done. eauto.
Qed.


(** X13: a second run on the same argument overwrites the backup with the
    truncated document: after two runs both names hold the first
    [min P 5] pages, so the pages after the fifth are lost. *)
Theorem second_run_overwrites_backup (script pdf_name : string) (w : world page)
    (pages : list page) :
  has_pypdf2 w = true →
  files w !! input_file pdf_name = Some (PdfFile pages) →
  let w1 := (main [script; pdf_name] w).2 in
  let w2 := (main [script; pdf_name] w1).2 in
  exit_status (main [script; pdf_name] w1).1 = 0%Z ∧
  files w2 !! backup_file pdf_name = Some (PdfFile (take (length pages `min` 5) pages)) ∧
  files w2 !! input_file pdf_name = Some (PdfFile (take (length pages `min` 5) pages)) ∧
  (5 < length pages → files w2 !! backup_file pdf_name ≠ Some (PdfFile pages)).
Proof.
  intros Hok Hin w1 w2.
  destruct (run_once script pdf_name w pages Hok Hin) as (out1 & Hrun1).
  unfold w2, w1. rewrite Hrun1. cbn [snd].
  set (first := take (length pages `min` 5) pages).
  set (fs1 := <[input_file pdf_name := PdfFile first]>
                (<[backup_file pdf_name := PdfFile pages]> (files w))).
  destruct (run_once script pdf_name (World fs1 (has_pypdf2 w) out1) first)
    as (out2 & Hrun2); [done|apply lookup_insert_eq|].
  rewrite Hrun2. cbn [fst snd files exit_status].
  assert (take (length first `min` 5) first = first) as ->.
  { unfold first. rewrite length_take. rewrite take_take. f_equal. lia. }
  split; [done|]. split; [|split].
  - rewrite lookup_insert_ne by apply input_ne_backup. apply lookup_insert_eq.
  - apply lookup_insert_eq.
  - intros Hlong. rewrite lookup_insert_ne by apply input_ne_backup.
    rewrite lookup_insert_eq. intros [= E].
    apply (f_equal length) in E. unfold first in E. rewrite length_take in E. lia.
Qed.


(** X15: for a name without a dot, the argument may be given with or
    without the extension [.pdf]: the two runs are the same. *)
Theorem extension_is_optional (script stem : string) (w : world page) :
  lacks "." stem →
  main [script; stem +:+ ".pdf"] w = main [script; stem] w ∧
  input_file (stem +:+ ".pdf") = stem +:+ ".pdf" ∧
  backup_file (stem +:+ ".pdf") = stem +:+ "_with_ref.pdf".
Proof.
  intros Hstem. destruct (base_name_without_dot stem Hstem) as [H1 H2].
  assert (process_pdf (page := page) (stem +:+ ".pdf") = process_pdf stem) as Hsame.
  { unfold process_pdf, input_file, backup_file. by rewrite H1, H2. }
  split; [|unfold input_file, backup_file; by rewrite H2].
  unfold main. by rewrite Hsame.
Qed.

End Pdf.


Lemma second_run_overwrites_backup_witness :
  let w1 := (main ["split-pdf.py"; "main.pdf"]
               (World {["main.pdf" := PdfFile [1; 2; 3; 4; 5; 6; 7]]} true [])).2 in
  let w2 := (main ["split-pdf.py"; "main.pdf"] w1).2 in
  exit_status (main ["split-pdf.py"; "main.pdf"] w1).1 = 0%Z ∧
  files w2 !! backup_file "main.pdf"
    = Some (PdfFile (take (length [1; 2; 3; 4; 5; 6; 7] `min` 5) [1; 2; 3; 4; 5; 6; 7])) ∧
  files w2 !! input_file "main.pdf"
    = Some (PdfFile (take (length [1; 2; 3; 4; 5; 6; 7] `min` 5) [1; 2; 3; 4; 5; 6; 7])) ∧
  (5 < length [1; 2; 3; 4; 5; 6; 7] →
   files w2 !! backup_file "main.pdf" ≠ Some (PdfFile [1; 2; 3; 4; 5; 6; 7])).
Proof.
  assert (has_pypdf2 (World {["main.pdf" := PdfFile [1; 2; 3; 4; 5; 6; 7]]} true []) = true)
    as Hok by reflexivity.
  assert (files (World {["main.pdf" := PdfFile [1; 2; 3; 4; 5; 6; 7]]} true [])
            !! input_file "main.pdf" = Some (PdfFile [1; 2; 3; 4; 5; 6; 7])) as Hin.
  { vm_compute. reflexivity. }
  exact (second_run_overwrites_backup "split-pdf.py" "main.pdf" _ _ Hok Hin).
Defined.


Lemma extension_is_optional_witness :
  main (page := nat) ["split-pdf.py"; "main" +:+ ".pdf"]
    (World {["main.pdf" := PdfFile [1; 2; 3]]} true [])
  = main ["split-pdf.py"; "main"] (World {["main.pdf" := PdfFile [1; 2; 3]]} true []) ∧
  input_file ("main" +:+ ".pdf") = "main" +:+ ".pdf" ∧
  backup_file ("main" +:+ ".pdf") = "main" +:+ "_with_ref.pdf".
Proof.
  assert (lacks "." "main") as H.
  { vm_compute. repeat split; discriminate. }
  exact (extension_is_optional "split-pdf.py" "main" _ H).
Defined.

End SplitPdfRuns.
